(** * Primary-key extraction from YANG files: model and verified properties

    A shallow embedding of [extract_primary_keys.py].  Text is a list of
    Unicode code points (a Python [str]); the two regular expressions of the
    script are written as compiled patterns and run by a small backtracking
    matcher with Python's priorities (greedy and lazy repeats, first success
    wins); dictionaries are insertion-ordered association lists, as Python's
    [dict]; logging, exceptions and output are threaded through a small
    monad. *)

From Stdlib Require Import String Ascii.
From Stdlib Require Import List NArith Bool Arith Lia.
Import ListNotations.
Local Open Scope N_scope.

(** ** Text *)

Definition char := N.
Definition str := list char.

(** A Python literal made of ASCII characters. *)
Definition lit (s : string) : str := map N_of_ascii (list_ascii_of_string s).

Definition dquote : char := 34.
Definition newline : char := 10.
Definition slash : char := 47.
Definition hyphen : char := 45.
Definition lbrace : char := 123.

Definition str_eqb (a b : str) : bool :=
  if list_eq_dec N.eq_dec a b then true else false.

(** [Py_UNICODE_ISSPACE]: the class behind [\s] of a [str] pattern and behind
    [str.strip()] and [str.split()] without arguments. *)
Definition isspace (c : char) : bool :=
  ((9 <=? c) && (c <=? 13)) || ((28 <=? c) && (c <=? 32))
  || (c =? 0x85) || (c =? 0xA0) || (c =? 0x1680)
  || ((0x2000 <=? c) && (c <=? 0x200A))
  || (c =? 0x2028) || (c =? 0x2029) || (c =? 0x202F) || (c =? 0x205F)
  || (c =? 0x3000).

Definition ascii_alnum (c : char) : bool :=
  ((48 <=? c) && (c <=? 57)) || ((65 <=? c) && (c <=? 90))
  || ((97 <=? c) && (c <=? 122)).

(** [s.endswith(suffix)] *)
Definition endswith (s suffix : str) : bool :=
  str_eqb (skipn (length s - length suffix) s) suffix
  && (length suffix <=? length s)%nat.

(** [c in s] for a one-character [c] *)
Definition contains (c : char) (s : str) : bool := existsb (N.eqb c) s.

(** [s.lstrip()], [s.rstrip()], [s.strip()] *)
Fixpoint lstrip (s : str) : str :=
  match s with
  | c :: s' => if isspace c then lstrip s' else s
  | [] => []
  end.

Definition rstrip (s : str) : str := rev (lstrip (rev s)).

Definition strip (s : str) : str := rstrip (lstrip s).

(** [s.split()]: the maximal runs of non-whitespace characters, in order.
    [cur] is the run being read, last character first. *)
Fixpoint split_from (cur : str) (s : str) : list str :=
  match s with
  | [] => match cur with [] => [] | _ => [rev cur] end
  | c :: s' =>
      if isspace c
      then match cur with
           | [] => split_from [] s'
           | _ => rev cur :: split_from [] s'
           end
      else split_from (c :: cur) s'
  end.

Definition split (s : str) : list str := split_from [] s.

(** [os.path.basename] (posixpath): what follows the last slash. *)
Fixpoint basename (p : str) : str :=
  match p with
  | [] => []
  | c :: p' => if contains slash p then basename p' else p
  end.

(** [os.path.join(a, b)] (posixpath), two arguments. *)
Definition path_join (a b : str) : str :=
  match b with
  | c :: _ =>
      if c =? slash then b
      else if endswith a [slash] || (length a =? 0)%nat then a ++ b
      else a ++ slash :: b
  | [] =>
      if endswith a [slash] || (length a =? 0)%nat then a else a ++ [slash]
  end.

(** ** Dictionaries

    A Python [dict] keeps its keys in insertion order; assigning to a key that
    is present replaces the value in place. *)

Section Dict.
Context {V : Type}.

Definition dict := list (str * V).

Fixpoint dict_get (d : dict) (k : str) : option V :=
  match d with
  | [] => None
  | (k', v) :: d' => if str_eqb k' k then Some v else dict_get d' k
  end.

(** [d[k] = v] *)
Fixpoint dict_set (d : dict) (k : str) (v : V) : dict :=
  match d with
  | [] => [(k, v)]
  | (k', v') :: d' =>
      if str_eqb k' k then (k', v) :: d' else (k', v') :: dict_set d' k v
  end.

(** [d.update(e)] *)
Definition dict_update (d e : dict) : dict :=
  fold_left (fun acc kv => dict_set acc (fst kv) (snd kv)) e d.

Definition keys (d : dict) : list str := map fst d.
End Dict.
Arguments dict V : clear implicits.

(** ** Regular expressions

    A compiled pattern is a sequence of nodes.  Every repeat of the two
    patterns of the script ranges over a one-character class, so a repeat
    node carries the class, its lower bound and whether it is greedy.
    [Open g] and [Close g] are the marks of capturing group [g]. *)

Inductive node :=
| Lit (c : char)
| Rep (greedy : bool) (lo : nat) (cls : char -> bool)
| Open (g : nat)
| Close (g : nat)
| Dollar.

Definition pattern := list node.

(** The matcher's marks: where each open group started (as the text that
    remained there) and what each closed group captured. *)
Record marks := { started : list (nat * str); captured : list (nat * str) }.

Definition no_marks : marks := {| started := []; captured := [] |}.

Fixpoint assoc (l : list (nat * str)) (g : nat) : option str :=
  match l with
  | [] => None
  | (g', s) :: l' => if Nat.eqb g' g then Some s else assoc l' g
  end.

Definition open_group (g : nat) (s : str) (mk : marks) : marks :=
  {| started := (g, s) :: started mk; captured := captured mk |}.

Definition close_group (g : nat) (s : str) (mk : marks) : marks :=
  match assoc (started mk) g with
  | Some s0 =>
      {| started := started mk;
         captured := (g, firstn (length s0 - length s) s0) :: captured mk |}
  | None => mk
  end.

(** [m.group(g)] of a successful match; a group that did not take part
    reads as the empty string here (Python gives [None]). *)
Definition group (mk : marks) (g : nat) : str :=
  match assoc (captured mk) g with Some s => s | None => [] end.

Section Repeat.
Variable R : Type.
Variable cls : char -> bool.
Variable lo : nat.
Variable k : str -> option R.

(** Greedy: take one more character when possible and come back to the
    shorter repetition only if the rest of the pattern fails. *)
Fixpoint rep_greedy (n : nat) (s : str) : option R :=
  match s with
  | c :: s' =>
      if cls c then
        match rep_greedy (S n) s' with
        | Some r => Some r
        | None => if (lo <=? n)%nat then k s else None
        end
      else if (lo <=? n)%nat then k s else None
  | [] => if (lo <=? n)%nat then k s else None
  end.

(** Lazy: try the rest of the pattern first and take one more character
    only if that fails. *)
Fixpoint rep_lazy (n : nat) (s : str) : option R :=
  match (if (lo <=? n)%nat then k s else None) with
  | Some r => Some r
  | None =>
      match s with
      | c :: s' => if cls c then rep_lazy (S n) s' else None
      | [] => None
      end
  end.
End Repeat.
Arguments rep_greedy {R}.
Arguments rep_lazy {R}.

(** [run p mk s]: match [p] at the head of [s]; on success the text left
    after the match and the marks. *)
Fixpoint run (p : pattern) (mk : marks) (s : str) : option (str * marks) :=
  match p with
  | [] => Some (s, mk)
  | Lit c :: p' =>
      match s with
      | x :: s' => if x =? c then run p' mk s' else None
      | [] => None
      end
  | Rep true lo cls :: p' => rep_greedy cls lo (run p' mk) 0 s
  | Rep false lo cls :: p' => rep_lazy cls lo (run p' mk) 0 s
  | Open g :: p' => run p' (open_group g s mk) s
  | Close g :: p' => run p' (close_group g s mk) s
  | Dollar :: p' =>
      match s with
      | [] => run p' mk s
      | [c] => if c =? newline then run p' mk s else None
      | _ => None
      end
  end.

(** [pattern.match(s)]: anchored at the start of [s]. *)
Definition re_match (p : pattern) (s : str) : option (str * marks) :=
  run p no_marks s.

(** [re.finditer(p, s)]: the matches from left to right, each search resuming
    where the previous match ended.  [skip] counts the characters of the
    previous match that are still to be passed.  The pattern of the script
    never matches the empty string, so the rules of [re] for empty matches
    are not modelled. *)
Fixpoint finditer_from (p : pattern) (skip : nat) (s : str) : list marks :=
  match s with
  | [] =>
      match skip, re_match p [] with
      | O, Some (_, mk) => [mk]
      | _, _ => []
      end
  | _ :: s' =>
      match skip with
      | S n => finditer_from p n s'
      | O =>
          match re_match p s with
          | Some (rest, mk) =>
              mk :: finditer_from p (length s' - length rest) s'
          | None => finditer_from p 0 s'
          end
      end
  end.

Definition finditer (p : pattern) (s : str) : list marks := finditer_from p 0 s.

Definition lits (s : string) : pattern := map Lit (lit s).

Definition is_not (c : char) : char -> bool := fun x => negb (x =? c).

(** [pattern = re.compile(r'.*-.*\.yang$')] in [extract_yang_files]: without
    DOTALL the dot is any character but a newline. *)
Definition yang_pattern : pattern :=
  [Rep true 0 (is_not newline); Lit hyphen; Rep true 0 (is_not newline)]
  ++ lits ".yang" ++ [Dollar].

(** The member filter of [extract_yang_files]. *)
Definition is_yang_member (file_path : str) : bool :=
  match re_match yang_pattern file_path with
  | Some _ =>
      negb (endswith file_path [slash])
      && contains hyphen (basename file_path)
  | None => false
  end.

(** ** Key representation: a Python [str] or a [list] of [str] *)

Inductive key :=
| Single (k : str)
| Multiple (ks : list str).

(** ** The output document: [json.dumps(d, indent=2)]

    With the defaults, [ensure_ascii] is on: a string is written between
    double quotes with everything outside the printable ASCII range
    escaped, code points above U+FFFF as a surrogate pair. *)

Definition hex_digit (n : N) : char :=
  if n <? 10 then 48 + n else 87 + n.

Definition hex4 (n : N) : str :=
  [hex_digit (n / 4096 mod 16); hex_digit (n / 256 mod 16);
   hex_digit (n / 16 mod 16); hex_digit (n mod 16)].

Definition backslash : char := 92.

Definition escape_char (c : char) : str :=
  if c =? dquote then [backslash; dquote]
  else if c =? backslash then [backslash; backslash]
  else if c =? 10 then backslash :: lit "n"
  else if c =? 13 then backslash :: lit "r"
  else if c =? 9 then backslash :: lit "t"
  else if c =? 12 then backslash :: lit "f"
  else if c =? 8 then backslash :: lit "b"
  else if (32 <=? c) && (c <=? 126) then [c]
  else if c <? 0x10000 then backslash :: lit "u" ++ hex4 c
  else
    let v := c - 0x10000 in
    let s1 := N.lor 0xD800 (N.land (N.shiftr v 10) 0x3FF) in
    let s2 := N.lor 0xDC00 (N.land v 0x3FF) in
    backslash :: lit "u" ++ hex4 s1 ++ backslash :: lit "u" ++ hex4 s2.

Definition encode_string (s : str) : str :=
  dquote :: flat_map escape_char s ++ [dquote].

(** The items of a container at nesting depth [level], each on a line of
    its own, separated by commas. *)
Definition newline_indent (level : nat) : str :=
  newline :: repeat 32 (2 * level).

Fixpoint join_items (level : nat) (items : list str) : str :=
  match items with
  | [] => []
  | [x] => x
  | x :: rest => x ++ lit "," ++ newline_indent level ++ join_items level rest
  end.

Definition encode_list (level : nat) (l : list str) : str :=
  match l with
  | [] => lit "[]"
  | _ =>
      lit "[" ++ newline_indent (S level)
      ++ join_items (S level) (map encode_string l)
      ++ newline_indent level ++ lit "]"
  end.

Definition encode_value (level : nat) (v : key) : str :=
  match v with
  | Single k => encode_string k
  | Multiple ks => encode_list level ks
  end.

Definition encode_item (kv : str * key) : str :=
  encode_string (fst kv) ++ lit ": " ++ encode_value 1 (snd kv).

Definition json_dumps (d : dict key) : str :=
  match d with
  | [] => lit "{}"
  | _ =>
      lit "{" ++ newline_indent 1 ++ join_items 1 (map encode_item d)
      ++ newline_indent 0 ++ lit "}"
  end.

(** ** Reading the output document back: [json.loads]

    The decoder of the [json] module on documents of the shape the script
    writes: one object whose values are strings or arrays of strings.  Any
    other value is rejected, as a document that holds no mapping from entity
    names to keys.  Recursion is bounded by the length of the text, every
    step consuming at least one character. *)

Definition hex_value (c : char) : option N :=
  if (48 <=? c) && (c <=? 57) then Some (c - 48)
  else if (97 <=? c) && (c <=? 102) then Some (c - 87)
  else if (65 <=? c) && (c <=? 70) then Some (c - 55)
  else None.

Definition decode_hex4 (s : str) : option (N * str) :=
  match s with
  | a :: b :: c :: d :: rest =>
      match hex_value a, hex_value b, hex_value c, hex_value d with
      | Some x, Some y, Some z, Some u =>
          Some (((x * 16 + y) * 16 + z) * 16 + u, rest)
      | _, _, _, _ => None
      end
  | _ => None
  end.

(** The character a one-letter escape stands for. *)
Definition unescape (e : char) : option char :=
  if e =? dquote then Some dquote
  else if e =? backslash then Some backslash
  else if e =? 47 then Some 47
  else if e =? 98 then Some 8
  else if e =? 102 then Some 12
  else if e =? 110 then Some 10
  else if e =? 114 then Some 13
  else if e =? 116 then Some 9
  else None.

Definition is_high_surrogate (u : N) : bool := (0xD800 <=? u) && (u <=? 0xDBFF).
Definition is_low_surrogate (u : N) : bool := (0xDC00 <=? u) && (u <=? 0xDFFF).

(** After [\uXXXX] gave [uni] and left [s]: a high surrogate followed by an
    escaped low surrogate is joined with it. *)
Definition join_surrogates (uni : N) (s : str) : option (char * str) :=
  if is_high_surrogate uni then
    match s with
    | b :: u :: s' =>
        if (b =? backslash) && (u =? 117) then
          match decode_hex4 s' with
          | Some (uni2, s'') =>
              if is_low_surrogate uni2
              then Some (0x10000 + N.lor (N.shiftl (uni - 0xD800) 10)
                                         (uni2 - 0xDC00), s'')
              else Some (uni, s)
          | None => None
          end
        else Some (uni, s)
    | _ => Some (uni, s)
    end
  else Some (uni, s).

Definition prepend {A B} (a : A) (r : option (list A * B)) : option (list A * B) :=
  match r with
  | Some (l, b) => Some (a :: l, b)
  | None => None
  end.

(** [scanstring] in strict mode, from after the opening quote: the string
    and the text after its closing quote. *)
Fixpoint scanstring (fuel : nat) (s : str) : option (str * str) :=
  match fuel with
  | O => None
  | S fuel' =>
      match s with
      | [] => None
      | c :: s' =>
          if c =? dquote then Some ([], s')
          else if c =? backslash then
            match s' with
            | [] => None
            | e :: s'' =>
                if e =? 117 then
                  match decode_hex4 s'' with
                  | Some (uni, s3) =>
                      match join_surrogates uni s3 with
                      | Some (ch, s4) => prepend ch (scanstring fuel' s4)
                      | None => None
                      end
                  | None => None
                  end
                else
                  match unescape e with
                  | Some ch => prepend ch (scanstring fuel' s'')
                  | None => None
                  end
            end
          else if c <? 32 then None
          else prepend c (scanstring fuel' s')
      end
  end.

Definition json_ws (c : char) : bool :=
  (c =? 32) || (c =? 9) || (c =? 10) || (c =? 13).

Fixpoint skip_ws (s : str) : str :=
  match s with
  | c :: s' => if json_ws c then skip_ws s' else s
  | [] => []
  end.

Definition parse_string (s : str) : option (str * str) :=
  match s with
  | c :: s' => if c =? dquote then scanstring (length s') s' else None
  | [] => None
  end.

(** The items of a non-empty array of strings, from its first item. *)
Fixpoint parse_items (fuel : nat) (s : str) : option (list str * str) :=
  match fuel with
  | O => None
  | S fuel' =>
      match parse_string s with
      | Some (x, s1) =>
          match skip_ws s1 with
          | c :: s2 =>
              if c =? 93 then Some ([x], s2)
              else if c =? 44 then prepend x (parse_items fuel' (skip_ws s2))
              else None
          | [] => None
          end
      | None => None
      end
  end.

(** A value of the mapping: a string, or an array of strings. *)
Definition parse_value (s : str) : option (key * str) :=
  match s with
  | c :: s' =>
      if c =? dquote then
        match scanstring (length s') s' with
        | Some (x, rest) => Some (Single x, rest)
        | None => None
        end
      else if c =? 91 then
        match skip_ws s' with
        | d :: s'' =>
            if d =? 93 then Some (Multiple [], s'')
            else
              match parse_items (length s') (skip_ws s') with
              | Some (xs, rest) => Some (Multiple xs, rest)
              | None => None
              end
        | [] => None
        end
      else None
  | [] => None
  end.

(** The members of a non-empty object, from its first key. *)
Fixpoint parse_members (fuel : nat) (s : str) : option (list (str * key) * str) :=
  match fuel with
  | O => None
  | S fuel' =>
      match parse_string s with
      | Some (k, s1) =>
          match skip_ws s1 with
          | c :: s2 =>
              if c =? 58 then
                match parse_value (skip_ws s2) with
                | Some (v, s3) =>
                    match skip_ws s3 with
                    | d :: s4 =>
                        if d =? 125 then Some ([(k, v)], s4)
                        else if d =? 44
                        then prepend (k, v) (parse_members fuel' (skip_ws s4))
                        else None
                    | [] => None
                    end
                | None => None
                end
              else None
          | [] => None
          end
      | None => None
      end
  end.

(** [json.loads]: the members are assigned to a fresh dictionary in order,
    and nothing but whitespace may follow the object. *)
Definition json_loads (s : str) : option (dict key) :=
  match skip_ws s with
  | c :: s1 =>
      if c =? 123 then
        match skip_ws s1 with
        | d :: s2 =>
            if d =? 125 then
              match skip_ws s2 with [] => Some [] | _ => None end
            else
              match parse_members (length s1) (skip_ws s1) with
              | Some (members, rest) =>
                  match skip_ws rest with
                  | [] => Some (dict_update [] members)
                  | _ => None
                  end
              | None => None
              end
        | [] => None
        end
      else None
  | [] => None
  end.

(** A Unicode scalar value: a code point that is not a surrogate.  The text
    of a file decoded from UTF-8 with [errors='replace'] is made of scalar
    values. *)
Definition scalar (c : char) : Prop :=
  c < 0x110000 /\ ~ (0xD800 <= c <= 0xDFFF).

Definition scalar_key (v : key) : Prop :=
  match v with
  | Single k => Forall scalar k
  | Multiple ks => Forall (Forall scalar) ks
  end.

Definition scalarb (c : char) : bool :=
  (c <? 0x110000) && negb ((0xD800 <=? c) && (c <=? 0xDFFF)).

Definition scalar_keyb (v : key) : bool :=
  match v with
  | Single k => forallb scalarb k
  | Multiple ks => forallb (forallb scalarb) ks
  end.

(** A mapping as the script can build it: distinct entity names, and
    strings of scalar values. *)
Definition well_formed (d : dict key) : Prop :=
  NoDup (keys d)
  /\ Forall (fun kv => Forall scalar (fst kv) /\ scalar_key (snd kv)) d.

(** ** Effects: the log, exceptions and the output *)

Inductive level := DEBUG | INFO | WARNING | ERROR.

Definition levelno (l : level) : nat :=
  match l with DEBUG => 10 | INFO => 20 | WARNING => 30 | ERROR => 40 end.

Inductive exn :=
| ArchiveError (zip_path : str)
| MemberError (member : str)
| FileError (path : str)
| WriteError (destination : option str).

(** The log records of the script, one constructor per format string. *)
Inductive message :=
| AllFilesInZip (all_files : list str)
| Extracted (file_path : str)
| TotalExtracted (n : nat)
| FoundTable (table_name : str) (keys : list str)
| ErrorParsing (path : str) (e : exn)
| ExtractedTables (n : nat) (base_name : str)
| NoYangFilesFound
| ExaminingSample (file_path : str)
| SampleContent (content : list Byte.byte)
| Parsing (yang_file : str)
| ResultsSaved (path : str)
| ErrorMessage (e : exn).

Inductive output :=
| Printed (text : str)
| Saved (path : str) (text : str).

(** Where a document goes: a file, or the standard output. *)
Definition destination (o : output) : option str :=
  match o with
  | Printed _ => None
  | Saved path _ => Some path
  end.

Record state := {
  logger_level : level;
  log : list (level * message);
  out : list output
}.

Definition start : state := {| logger_level := INFO; log := []; out := [] |}.

Inductive result (A : Type) :=
| Ok (a : A)
| Raise (e : exn).
Arguments Ok {A}.
Arguments Raise {A}.

Definition M (A : Type) : Type := state -> result A * state.

Definition ret {A} (a : A) : M A := fun st => (Ok a, st).

Definition bind {A B} (c : M A) (f : A -> M B) : M B :=
  fun st =>
    match c st with
    | (Ok a, st') => f a st'
    | (Raise e, st') => (Raise e, st')
    end.

Definition raise {A} (e : exn) : M A := fun st => (Raise e, st).

(** [try: c  except Exception as e: h e] *)
Definition try_except {A} (c : M A) (h : exn -> M A) : M A :=
  fun st =>
    match c st with
    | (Ok a, st') => (Ok a, st')
    | (Raise e, st') => h e st'
    end.

Notation "x <- c ;; k" := (bind c (fun x => k))
  (at level 61, c at next level, right associativity).
Notation "c ;;; k" := (bind c (fun _ => k))
  (at level 61, right associativity).

(** [logger.debug], [logger.info], ...: a record below the logger's level
    is dropped. *)
Definition logger (l : level) (msg : message) : M unit :=
  fun st =>
    if (levelno (logger_level st) <=? levelno l)%nat
    then (Ok tt, {| logger_level := logger_level st;
                    log := log st ++ [(l, msg)];
                    out := out st |})
    else (Ok tt, st).

Definition setLevel (l : level) : M unit :=
  fun st => (Ok tt, {| logger_level := l; log := log st; out := out st |}).

Definition emit (o : output) : M unit :=
  fun st => (Ok tt, {| logger_level := logger_level st;
                       log := log st;
                       out := out st ++ [o] |}).

(** A [for] loop that updates an accumulator. *)
Fixpoint for_each {A B} (l : list A) (acc : B) (body : B -> A -> M B) : M B :=
  match l with
  | [] => ret acc
  | x :: l' => acc' <- body acc x ;; for_each l' acc' body
  end.

(** ** The world outside the script *)

(** An open archive: its listing, whether [zip_ref.extract] of a member
    succeeds, and what [zip_ref.open(member).read(500)] gives. *)
Record archive := {
  namelist : list str;
  extract_ok : str -> bool;
  read500 : str -> option (list Byte.byte)
}.

(** [ZipFile(zip_path)] fails on a missing, unreadable or invalid archive.
    [file_text path] is [open(path, encoding='utf-8', errors='replace').read()]
    once the members are extracted: decoding never fails, opening may.
    [write_ok o] tells whether the write [o] of [main] completes:
    [open(args.output, 'w')] followed by [json.dump], or [print]. *)
Record world := {
  ZipFile : str -> option archive;
  tempdir : str;
  file_text : str -> option str;
  write_ok : output -> bool
}.

(** ** Sample inputs *)

(** The alphanumeric characters of the Latin-1 supplement; as a table for
    [Py_UNICODE_ISALNUM] it is exact up to U+00FF. *)
Definition latin1_alnum (c : char) : bool :=
  (c =? 0xAA) || (c =? 0xB2) || (c =? 0xB3) || (c =? 0xB5) || (c =? 0xB9)
  || (c =? 0xBA) || ((0xBC <=? c) && (c <=? 0xBE))
  || ((0xC0 <=? c) && (c <=? 0xD6)) || ((0xD8 <=? c) && (c <=? 0xF6))
  || ((0xF8 <=? c) && (c <=? 0xFF)).

Definition foo : str := lit "Foo".
Definition bar : str := lit "bar".
Definition baz : str := lit "baz".

(** [list Foo { key Q...Q; }] with the quoted text [quoted]. *)
Definition list_foo (quoted : str) : str :=
  lit "list Foo { key " ++ [dquote] ++ quoted ++ [dquote] ++ lit "; }".

(** An archive with a directory entry, two members that both declare [Foo],
    a member that cannot be read once extracted, and a member named by a
    version only. *)
Definition sample_archive : archive := {|
  namelist := [lit "yang/"; lit "yang/1.0-foo.yang"; lit "yang/1.0-gone.yang";
               lit "yang/1.0.yang"; lit "yang/1.1-foo.yang"];
  extract_ok := fun _ => true;
  read500 := fun _ => Some []
|}.

Definition sample_world : world := {|
  ZipFile := fun zip_path =>
    if str_eqb zip_path (lit "schemas.zip") then Some sample_archive else None;
  tempdir := lit "/tmp/tmpk3";
  file_text := fun path =>
    if str_eqb path (lit "/tmp/tmpk3/yang/1.0-foo.yang")
    then Some (list_foo bar)
    else if str_eqb path (lit "/tmp/tmpk3/yang/1.1-foo.yang")
    then Some (list_foo (lit "bar baz"))
    else None;
  write_ok := fun o =>
    match destination o with
    | Some path => negb (str_eqb path (lit "no-such-dir/out.json"))
    | None => true
    end
|}.



(** An archive whose only member is named by a version and is stored
    encrypted: it is listed, but reading it raises. *)
Definition encrypted_archive : archive := {|
  namelist := [lit "1.0.yang"];
  extract_ok := fun _ => false;
  read500 := fun _ => None
|}.

Definition encrypted_world : world := {|
  ZipFile := fun _ => Some encrypted_archive;
  tempdir := lit "/tmp/tmpk3";
  file_text := fun _ => None;
  write_ok := fun _ => true
|}.

(** An archive whose second member cannot be extracted. *)
Definition corrupt_archive : archive := {|
  namelist := [lit "yang/1.0-foo.yang"; lit "yang/1.1-foo.yang"];
  extract_ok := fun member => str_eqb member (lit "yang/1.0-foo.yang");
  read500 := fun _ => Some []
|}.

Definition corrupt_world : world := {|
  ZipFile := fun _ => Some corrupt_archive;
  tempdir := lit "/tmp/tmpk3";
  file_text := fun _ => Some (list_foo bar);
  write_ok := fun _ => true
|}.

(** Two archives that list the same two members in opposite orders; one
    member declares [Foo], the other [Bar]. *)
Definition list_bar : str :=
  lit "list Bar { key " ++ [dquote] ++ lit "id" ++ [dquote] ++ lit "; }".

Definition foo_then_bar : archive := {|
  namelist := [lit "1.0-foo.yang"; lit "1.0-bar.yang"];
  extract_ok := fun _ => true;
  read500 := fun _ => Some []
|}.

Definition bar_then_foo : archive := {|
  namelist := [lit "1.0-bar.yang"; lit "1.0-foo.yang"];
  extract_ok := fun _ => true;
  read500 := fun _ => Some []
|}.

Definition two_orders_world : world := {|
  ZipFile := fun zip_path =>
    if str_eqb zip_path (lit "first.zip") then Some foo_then_bar
    else Some bar_then_foo;
  tempdir := lit "/tmp/tmpk3";
  file_text := fun path =>
    if str_eqb path (lit "/tmp/tmpk3/1.0-foo.yang") then Some (list_foo bar)
    else if str_eqb path (lit "/tmp/tmpk3/1.0-bar.yang") then Some list_bar
    else None;
  write_ok := fun _ => true
|}.

(** An archive with a member stored under an absolute name. *)
Definition absolute_archive : archive := {|
  namelist := [lit "/etc/1.0-foo.yang"; lit "yang/1.0-bar.yang"];
  extract_ok := fun _ => true;
  read500 := fun _ => Some []
|}.

Definition absolute_world : world := {|
  ZipFile := fun _ => Some absolute_archive;
  tempdir := lit "/tmp/tmpk3";
  file_text := fun path =>
    if str_eqb path (lit "/etc/1.0-foo.yang") then Some (list_foo bar)
    else if str_eqb path (lit "/tmp/tmpk3/yang/1.0-bar.yang")
         then Some list_bar
    else None;
  write_ok := fun _ => true
|}.

Section Unicode.
(** [Py_UNICODE_ISALNUM] beyond ASCII is a table of the Unicode database;
    it is a parameter of the development. *)
Variable isalnum_table : char -> bool.

Definition isalnum (c : char) : bool :=
  if c <? 128 then ascii_alnum c else isalnum_table c.

(** [\w] of a [str] pattern *)
Definition isword (c : char) : bool := isalnum c || (c =? 95).

(** The pattern of [extract_keys_using_regex], writing Q for the double
    quote: [list\s+(\w+)\s*{[^{]*?key\s+Q([^Q]+)Q].  DOTALL changes
    nothing: the pattern has no dot.  Its last part, from [key] on, is the
    key clause. *)
Definition key_clause_pattern : pattern :=
  lits "key"
  ++ [Rep true 1 isspace; Lit dquote; Open 2; Rep true 1 (is_not dquote);
      Close 2; Lit dquote].

Definition list_pattern : pattern :=
  lits "list"
  ++ [Rep true 1 isspace; Open 1; Rep true 1 isword; Close 1;
      Rep true 0 isspace; Lit lbrace; Rep false 0 (is_not lbrace)]
  ++ key_clause_pattern.

(** Lines 65-70: one key is stored as a string, any other number of keys
    as the list. *)
Definition key_representation (key_value : str) : key :=
  let keys := split key_value in
  if (length keys =? 1)%nat then Single (nth 0 keys []) else Multiple keys.

(** The body of the loop over the matches, lines 62-70. *)
Definition record_match (tables_and_keys : dict key) (m : marks) : dict key :=
  let table_name := group m 1 in
  let key_value := strip (group m 2) in
  dict_set tables_and_keys table_name (key_representation key_value).

(** What [extract_keys_using_regex] computes from the text of a file. *)
Definition extract_keys_from_text (content : str) : dict key :=
  fold_left record_match (finditer list_pattern content) [].

Section Script.
Variable w : world.

Definition open_archive (zip_path : str) : M archive :=
  match ZipFile w zip_path with
  | Some zip_ref => ret zip_ref
  | None => raise (ArchiveError zip_path)
  end.

Definition extract_yang_files (zip_path temp_dir : str) : M (list str) :=
  zip_ref <- open_archive zip_path ;;
  let all_files := namelist zip_ref in
  logger DEBUG (AllFilesInZip all_files) ;;;
  yang_files <-
    for_each all_files [] (fun yang_files file_path =>
      if is_yang_member file_path then
        if extract_ok zip_ref file_path then
          logger INFO (Extracted file_path) ;;;
          ret (yang_files ++ [path_join temp_dir file_path])
        else raise (MemberError file_path)
      else ret yang_files) ;;
  logger INFO (TotalExtracted (length yang_files)) ;;;
  ret yang_files.

(** The only statements of the [try] block that can raise are the [open]
    and the [read], which come before the first assignment to the
    dictionary: the handler always finds it empty. *)
Definition extract_keys_using_regex (yang_file_path : str) : M (dict key) :=
  tables_and_keys <-
    try_except
      (match file_text w yang_file_path with
       | None => raise (FileError yang_file_path)
       | Some content =>
           for_each (finditer list_pattern content) []
             (fun tables_and_keys m =>
                logger DEBUG
                  (FoundTable (group m 1) (split (strip (group m 2)))) ;;;
                ret (record_match tables_and_keys m))
       end)
      (fun e => logger ERROR (ErrorParsing yang_file_path e) ;;; ret []) ;;
  logger INFO
    (ExtractedTables (length tables_and_keys) (basename yang_file_path)) ;;;
  ret tables_and_keys.

(** The loop of lines 96-102 stops at the first member whose name ends
    in [.yang] and is not a directory entry. *)
Definition sample_member (zip_ref : archive) : option str :=
  find (fun file_path =>
          endswith file_path (lit ".yang")
          && negb (endswith file_path [slash]))
       (namelist zip_ref).

(** The diagnostic of lines 94-102: that member is opened and its first
    500 bytes are logged. *)
Definition examine_sample (zip_path : str) : M unit :=
  zip_ref <- open_archive zip_path ;;
  match sample_member zip_ref with
  | Some file_path =>
      logger INFO (ExaminingSample file_path) ;;;
      match read500 zip_ref file_path with
      | Some content => logger INFO (SampleContent content)
      | None => raise (MemberError file_path)
      end
  | None => ret tt
  end.

Definition extract_primary_keys_from_zip (zip_path : str) : M (dict key) :=
  let temp_dir := tempdir w in
  yang_files <- extract_yang_files zip_path temp_dir ;;
  match yang_files with
  | [] => logger WARNING NoYangFilesFound ;;; examine_sample zip_path
  | _ => ret tt
  end ;;;
  for_each yang_files [] (fun all_tables_and_keys yang_file =>
    logger INFO (Parsing yang_file) ;;;
    try_except
      (tables_and_keys <- extract_keys_using_regex yang_file ;;
       ret (dict_update all_tables_and_keys tables_and_keys))
      (fun e =>
         logger ERROR (ErrorParsing yang_file e) ;;;
         ret all_tables_and_keys)).

Record arguments := {
  zip_file : str;
  output_path : option str;
  verbose : bool
}.

(** The writes of lines 134-139, which are inside the [try] of [main]: a
    write that does not complete raises, and [out] records the documents
    written completely. *)
Definition write (o : output) : M unit :=
  if write_ok w o then emit o else raise (WriteError (destination o)).

(** [main]: the exit status. *)
Definition main (args : arguments) : M nat :=
  (if verbose args then setLevel DEBUG else ret tt) ;;;
  try_except
    (primary_keys <- extract_primary_keys_from_zip (zip_file args) ;;
     match output_path args with
     | Some (c :: p) =>
         write (Saved (c :: p) (json_dumps primary_keys)) ;;;
         logger INFO (ResultsSaved (c :: p)) ;;;
         ret 0%nat
     | _ =>
         write (Printed (json_dumps primary_keys)) ;;;
         ret 0%nat
     end)
    (fun e => logger ERROR (ErrorMessage e) ;;; ret 1%nat).

End Script.

(** ** Notions of the specification *)

(** The tokens of a key clause in the spec's words: the text with its
    leading and trailing whitespace removed, cut at every run of
    whitespace.  Each token is a non-empty run of characters that are not
    whitespace, and is followed by whitespace or by the end of the text. *)
Inductive Tokens : str -> list str -> Prop :=
| Tokens_end : Tokens [] []
| Tokens_space c s ts :
    isspace c = true -> Tokens s ts -> Tokens (c :: s) ts
| Tokens_word t s ts :
    t <> [] -> Forall (fun c => isspace c = false) t ->
    (s = [] \/ exists c s', s = c :: s' /\ isspace c = true) ->
    Tokens s ts -> Tokens (t ++ s) (t :: ts).

(** The last value a sequence of assignments gives to [k]. *)
Fixpoint last_assigned {V} (k : str) (l : list (str * V)) : option V :=
  match l with
  | [] => None
  | (k', v) :: l' =>
      match last_assigned k l' with
      | Some v' => Some v'
      | None => if str_eqb k' k then Some v else None
      end
  end.

(** A matched list declaration: the entity name and the key
    representation of its key clause. *)
Definition declaration (m : marks) : str * key :=
  (group m 1, key_representation (strip (group m 2))).

Definition declarations (content : str) : list (str * key) :=
  map declaration (finditer list_pattern content).

(** One state follows another in a run: the log has grown, and neither the
    logger's level nor the output has changed. *)
Definition follows (st st' : state) : Prop :=
  logger_level st' = logger_level st /\ out st' = out st
  /\ exists l, log st' = log st ++ l.

Definition logged (l : level) (msg : message) (st : state) : Prop :=
  In (l, msg) (log st).

Section Run.
Variable w : world.

(** What a selected member contributes: the mapping of its text, or
    nothing when the file cannot be read. *)
Definition member_tables (yang_file : str) : dict key :=
  match file_text w yang_file with
  | Some content => extract_keys_from_text content
  | None => []
  end.

(** The declarations of a run in processing order: members in the
    order given, declarations in textual order within a member. *)
Definition occurrences (yang_files : list str) : list (str * key) :=
  flat_map (fun yang_file =>
              match file_text w yang_file with
              | Some content => declarations content
              | None => []
              end) yang_files.

(** The texts of the members that could be read. *)
Definition readable_texts (yang_files : list str) : list str :=
  flat_map (fun yang_file =>
              match file_text w yang_file with
              | Some content => [content]
              | None => []
              end) yang_files.

(** A member has been processed by the loop of lines 105-112: it was
    announced in the log, and a failure to read it was logged. *)
Definition member_processed (st : state) (yang_file : str) : Prop :=
  ((levelno (logger_level st) <= levelno INFO)%nat ->
   logged INFO (Parsing yang_file) st)
  /\ (file_text w yang_file = None ->
      logged ERROR (ErrorParsing yang_file (FileError yang_file)) st).

(** Merging mappings in order, later entries overwriting earlier ones. *)
Definition merge (tables : list (dict key)) : dict key :=
  fold_left dict_update tables [].

(** The members the selector hands over, in archive listing order. *)
Definition selected (zip_ref : archive) : list str :=
  map (path_join (tempdir w)) (filter is_yang_member (namelist zip_ref)).
End Run.

(** [Matches p s r]: some way of matching [p] at the head of [s] leaves
    [r].  Priorities play no part here. *)
Inductive Matches : pattern -> str -> str -> Prop :=
| Matches_nil s : Matches [] s s
| Matches_lit c p s r : Matches p s r -> Matches (Lit c :: p) (c :: s) r
| Matches_rep g lo cls p x s r :
    Forall (fun c => cls c = true) x -> (lo <= length x)%nat ->
    Matches p s r -> Matches (Rep g lo cls :: p) (x ++ s) r
| Matches_open g p s r : Matches p s r -> Matches (Open g :: p) s r
| Matches_close g p s r : Matches p s r -> Matches (Close g :: p) s r
| Matches_dollar p s r :
    s = [] \/ s = [newline] -> Matches p s r -> Matches (Dollar :: p) s r.

Definition not_newline (c : char) : Prop := is_not newline c = true.

(** Every string the matcher keeps in its marks is made of characters that
    satisfy [P]. *)
Definition marks_of (P : char -> Prop) (mk : marks) : Prop :=
  Forall (fun gs => Forall P (snd gs)) (started mk)
  /\ Forall (fun gs => Forall P (snd gs)) (captured mk).

(** The strings of an entry of a mapping are made of characters that satisfy
    [P]. *)
Definition entry_of (P : char -> Prop) (kv : str * key) : Prop :=
  Forall P (fst kv)
  /\ match snd kv with
     | Single k => Forall P k
     | Multiple ks => Forall (Forall P) ks
     end.

(** The text of a list declaration up to the end of its key clause:
    [list], whitespace, the entity name, what stands between the name and
    the open brace, the brace, the body before the key clause, [key],
    whitespace, and the quoted string. *)
Definition declaration_text (ws1 name gap body ws3 raw : str) : str :=
  lit "list" ++ ws1 ++ name ++ gap ++ lbrace :: body
  ++ lit "key" ++ ws3 ++ dquote :: raw ++ [dquote].

(** A key clause at the head of a text: [key], whitespace, and a quoted
    string that is not empty. *)
Definition key_clause_at (s : str) : Prop :=
  exists ws x r,
    s = lit "key" ++ ws ++ dquote :: x ++ dquote :: r
    /\ ws <> [] /\ Forall (fun c => isspace c = true) ws
    /\ x <> [] /\ Forall (fun c => c <> dquote) x.

(** The names of a list in order of first occurrence, after those already
    seen. *)
Fixpoint add_new (seen : list str) (l : list str) : list str :=
  match l with
  | [] => seen
  | k :: l' =>
      if existsb (str_eqb k) seen then add_new seen l'
      else add_new (seen ++ [k]) l'
  end.

Definition first_occurrences (l : list str) : list str := add_new [] l.

(** The shape of a stored key: a single field name, or a list of field
    names that is not of length one; a field name is not empty and has
    neither whitespace nor a double quote. *)
Definition field_name (k : str) : Prop :=
  k <> [] /\ Forall (fun c => isspace c = false) k /\ ~ In dquote k.

Definition key_shape (v : key) : Prop :=
  match v with
  | Single k => field_name k
  | Multiple ks => length ks <> 1%nat /\ Forall field_name ks
  end.

(** The document of a run goes to the file named by a non-empty output
    argument, and to the standard output otherwise. *)
Definition written (args : arguments) (doc : str) : output :=
  match output_path args with
  | Some (c :: p) => Saved (c :: p) doc
  | _ => Printed doc
  end.

(** A computation that only logs: every state it reaches follows the one
    it started from. *)
Definition quiet {A} (c : M A) : Prop :=
  forall st, follows st (snd (c st)).

(** A computation whose result does not depend on the state, that is on the
    log, the logger's level and the output so far. *)
Definition stateless {A} (c : M A) : Prop :=
  forall st1 st2, fst (c st1) = fst (c st2).

(** A character of a pure-ASCII text document: printable, or a newline. *)
Definition printable (c : char) : bool :=
  (c =? newline) || ((32 <=? c) && (c <=? 126)).

(** The field names a stored key stands for. *)
Definition key_fields (v : key) : list str :=
  match v with
  | Single k => [k]
  | Multiple ks => ks
  end.

(** ** Strings and dictionaries *)

Lemma str_eqb_eq (a b : str) : str_eqb a b = true <-> a = b.
Proof.
  unfold str_eqb. destruct (list_eq_dec N.eq_dec a b); split; congruence.
Qed.

Lemma str_eqb_refl (a : str) : str_eqb a a = true.
Proof. now apply str_eqb_eq. Qed.

Lemma str_eqb_neq (a b : str) : str_eqb a b = false <-> a <> b.
Proof.
  unfold str_eqb. destruct (list_eq_dec N.eq_dec a b); split; congruence.
Qed.

Lemma dict_get_set_same {V} (d : dict V) k v :
  dict_get (dict_set d k v) k = Some v.
Proof.
  induction d as [|[k' v'] d IH]; simpl.
  - now rewrite str_eqb_refl.
  - destruct (str_eqb k' k) eqn:E; simpl; rewrite E; auto.
Qed.

Lemma dict_get_set_other {V} (d : dict V) k k' v :
  k <> k' -> dict_get (dict_set d k v) k' = dict_get d k'.
Proof.
  intros Hne. induction d as [|[k0 v0] d IH]; simpl.
  - apply str_eqb_neq in Hne. now rewrite Hne.
  - destruct (str_eqb k0 k) eqn:E; simpl.
    + apply str_eqb_eq in E. subst k0.
      apply str_eqb_neq in Hne. now rewrite Hne.
    + destruct (str_eqb k0 k'); auto.
Qed.

Lemma keys_dict_set_in {V} (d : dict V) k v :
  In k (keys d) -> keys (dict_set d k v) = keys d.
Proof.
  induction d as [|[k' v'] d IH]; simpl; [tauto|].
  intros Hin. destruct (str_eqb k' k) eqn:E; simpl; [reflexivity|].
  f_equal. apply IH. destruct Hin as [->|]; auto.
  now rewrite str_eqb_refl in E.
Qed.

Lemma keys_dict_set_notin {V} (d : dict V) k v :
  ~ In k (keys d) -> keys (dict_set d k v) = keys d ++ [k].
Proof.
  induction d as [|[k' v'] d IH]; simpl; [reflexivity|].
  intros Hin. destruct (str_eqb k' k) eqn:E; simpl.
  - apply str_eqb_eq in E. tauto.
  - f_equal. apply IH. tauto.
Qed.

(** Assignments keep the keys of a dictionary distinct. *)
Lemma dict_set_NoDup {V} (d : dict V) k v :
  NoDup (keys d) -> NoDup (keys (dict_set d k v)).
Proof.
  intros Hd. destruct (in_dec (list_eq_dec N.eq_dec) k (keys d)) as [Hin|Hin].
  - now rewrite keys_dict_set_in.
  - rewrite keys_dict_set_notin by assumption.
    apply NoDup_app; [assumption| repeat constructor; auto |].
    intros x Hx [->|[]]. auto.
Qed.

Lemma dict_update_cons {V} (d : dict V) kv e :
  dict_update d (kv :: e) = dict_update (dict_set d (fst kv) (snd kv)) e.
Proof. reflexivity. Qed.

Lemma dict_update_app {V} (d : dict V) e1 e2 :
  dict_update d (e1 ++ e2) = dict_update (dict_update d e1) e2.
Proof. unfold dict_update. apply fold_left_app. Qed.

Lemma dict_update_NoDup {V} (d e : dict V) :
  NoDup (keys d) -> NoDup (keys (dict_update d e)).
Proof.
  revert d. induction e as [|kv e IH]; intros d Hd; [assumption|].
  rewrite dict_update_cons. apply IH. now apply dict_set_NoDup.
Qed.

(** After a sequence of assignments a key holds the last value assigned to
    it, or what it held before when it was not assigned. *)
Lemma dict_get_update {V} (d : dict V) l k :
  dict_get (dict_update d l) k =
  match last_assigned k l with
  | Some v => Some v
  | None => dict_get d k
  end.
Proof.
  revert d. induction l as [|[k' v] l IH]; intros d; [reflexivity|].
  rewrite dict_update_cons, IH. simpl.
  destruct (last_assigned k l); [reflexivity|].
  destruct (str_eqb k' k) eqn:E.
  - apply str_eqb_eq in E. subst. apply dict_get_set_same.
  - apply dict_get_set_other. now apply str_eqb_neq.
Qed.

Lemma last_assigned_app {V} k (l1 l2 : list (str * V)) :
  last_assigned k (l1 ++ l2) =
  match last_assigned k l2 with
  | Some v => Some v
  | None => last_assigned k l1
  end.
Proof.
  induction l1 as [|[k' v] l1 IH]; simpl.
  - now destruct (last_assigned k l2).
  - rewrite IH. now destruct (last_assigned k l2).
Qed.

Lemma last_assigned_none {V} k (l : list (str * V)) :
  last_assigned k l = None <-> ~ In k (map fst l).
Proof.
  induction l as [|[k' v] l IH]; simpl; [tauto|].
  destruct (last_assigned k l).
  - split; [discriminate|]. intros H. exfalso. apply H. right.
    apply Decidable.not_not; [|intros H'; apply IH in H'; discriminate].
    destruct (in_dec (list_eq_dec N.eq_dec) k (map fst l)); [left|right]; auto.
  - destruct (str_eqb k' k) eqn:E.
    + apply str_eqb_eq in E. split; [discriminate|tauto].
    + apply str_eqb_neq in E. tauto.
Qed.

(** On a dictionary with distinct keys, a lookup finds the last (and only)
    entry of the key. *)
Lemma last_assigned_dict {V} (d : dict V) k :
  NoDup (keys d) -> last_assigned k d = dict_get d k.
Proof.
  induction d as [|[k' v] d IH]; simpl; [reflexivity|].
  intros Hd. inversion Hd as [|? ? Hnin Hd']; subst.
  rewrite IH by assumption.
  destruct (str_eqb k' k) eqn:E.
  - apply str_eqb_eq in E. subst k'.
    apply last_assigned_none in Hnin. rewrite <- IH by assumption.
    now rewrite Hnin.
  - now destruct (dict_get d k).
Qed.

(** ** Trimming and splitting *)

Lemma split_from_spaces cur ws :
  Forall (fun c => isspace c = true) ws ->
  split_from cur ws = match cur with [] => [] | _ => [rev cur] end.
Proof.
  intros H. revert cur. induction H as [|c ws Hc _ IH]; intros cur.
  - reflexivity.
  - simpl. rewrite Hc. destruct cur; rewrite IH; reflexivity.
Qed.

Lemma split_from_app_spaces cur s ws :
  Forall (fun c => isspace c = true) ws ->
  split_from cur (s ++ ws) = split_from cur s.
Proof.
  intros H. revert cur. induction s as [|c s IH]; intros cur.
  - simpl. now apply split_from_spaces.
  - simpl. destruct (isspace c); [destruct cur|]; now rewrite IH.
Qed.

Lemma lstrip_spec s :
  exists ws, s = ws ++ lstrip s /\ Forall (fun c => isspace c = true) ws.
Proof.
  induction s as [|c s (ws & Hs & Hws)]; simpl.
  - now exists [].
  - destruct (isspace c) eqn:E.
    + exists (c :: ws). split; [simpl; congruence|now constructor].
    + now exists [].
Qed.

Lemma rstrip_spec s :
  exists ws, s = rstrip s ++ ws /\ Forall (fun c => isspace c = true) ws.
Proof.
  unfold rstrip. destruct (lstrip_spec (rev s)) as (ws & Hs & Hws).
  exists (rev ws). split.
  - rewrite <- rev_app_distr, <- Hs. now rewrite rev_involutive.
  - now apply Forall_rev.
Qed.

Lemma split_lstrip s : split (lstrip s) = split s.
Proof.
  unfold split. induction s as [|c s IH]; simpl; [reflexivity|].
  destruct (isspace c) eqn:E; [assumption|]. simpl. now rewrite E.
Qed.

Lemma split_rstrip s : split (rstrip s) = split s.
Proof.
  destruct (rstrip_spec s) as (ws & Hs & Hws).
  rewrite Hs at 2. unfold split. now rewrite split_from_app_spaces.
Qed.

(** Trimming first changes nothing for [split()]. *)
Lemma split_strip s : split (strip s) = split s.
Proof. unfold strip. now rewrite split_rstrip, split_lstrip. Qed.

Lemma split_from_Tokens s :
  Tokens s (split_from [] s) /\
  forall cur, cur <> [] ->
    exists t rest ts,
      s = t ++ rest /\ Forall (fun c => isspace c = false) t /\
      (rest = [] \/ exists c s', rest = c :: s' /\ isspace c = true) /\
      split_from cur s = (rev cur ++ t) :: ts /\ Tokens rest ts.
Proof.
  induction s as [|c s [IHa IHb]].
  - split; [constructor|]. intros cur Hcur.
    exists [], [], []. simpl. rewrite app_nil_r.
    destruct cur; [congruence|]. repeat split; auto. constructor.
  - destruct (isspace c) eqn:E.
    + split.
      * simpl. rewrite E. now constructor.
      * intros cur Hcur. exists [], (c :: s), (split_from [] s).
        simpl. rewrite E, app_nil_r. destruct cur; [congruence|].
        repeat split; eauto. now constructor.
    + assert (Hstep : forall cur,
                 exists t rest ts,
                   c :: s = t ++ rest /\ t <> [] /\
                   Forall (fun c => isspace c = false) t /\
                   (rest = [] \/ exists c s', rest = c :: s' /\ isspace c = true) /\
                   split_from cur (c :: s) = (rev cur ++ t) :: ts /\
                   Tokens rest ts).
      { intros cur. destruct (IHb (c :: cur)) as (t & rest & ts & Hs & Ht & Hr & Hsp & Hts);
          [discriminate|].
        exists (c :: t), rest, ts. simpl. rewrite E, Hsp. simpl.
        rewrite <- app_assoc. simpl.
        repeat split; auto; [congruence|discriminate]. }
      split.
      * destruct (Hstep []) as (t & rest & ts & Hs & Hne & Ht & Hr & Hsp & Hts).
        rewrite Hsp, Hs. simpl. now constructor.
      * intros cur _.
        destruct (Hstep cur) as (t & rest & ts & Hs & Hne & Ht & Hr & Hsp & Hts).
        exists t, rest, ts. auto.
Qed.

(** What [split()] returns are the tokens of the text. *)
Lemma split_Tokens s : Tokens s (split s).
Proof. apply split_from_Tokens. Qed.

Lemma split_from_word cur t s :
  Forall (fun c => isspace c = false) t ->
  split_from cur (t ++ s) = split_from (rev t ++ cur) s.
Proof.
  intros H. revert cur. induction H as [|c t Hc _ IH]; intros cur.
  - reflexivity.
  - simpl. rewrite Hc, IH, <- app_assoc. reflexivity.
Qed.

(** The tokens of a text are unique: they are what [split()] returns. *)
Lemma Tokens_split s ts : Tokens s ts -> split s = ts.
Proof.
  unfold split. induction 1 as [|c s ts Hc _ IH|t s ts Hne Ht Hs _ IH].
  - reflexivity.
  - simpl. now rewrite Hc.
  - rewrite split_from_word, app_nil_r by assumption.
    assert (Hr : rev t <> []).
    { intros Hr. apply Hne. now rewrite <- (rev_involutive t), Hr. }
    destruct Hs as [->|(c & s' & -> & Hc)].
    + simpl in *. subst ts. destruct (rev t) eqn:Er; [congruence|].
      now rewrite <- Er, rev_involutive.
    + simpl in *. rewrite Hc in *. destruct (rev t) eqn:Er; [congruence|].
      now rewrite <- Er, rev_involutive, IH.
Qed.

Lemma Tokens_nonempty s ts :
  Tokens s ts ->
  Forall (fun t => t <> [] /\ Forall (fun c => isspace c = false) t) ts.
Proof. induction 1; auto. Qed.

(** ** The extractor on the text of one member *)

Lemma fold_record_match ms d :
  fold_left record_match ms d = dict_update d (map declaration ms).
Proof.
  revert d. induction ms as [|m ms IH]; intros d; [reflexivity|].
  simpl. now rewrite IH.
Qed.

Lemma extract_keys_from_text_eq content :
  extract_keys_from_text content = dict_update [] (declarations content).
Proof. apply fold_record_match. Qed.

Lemma extract_keys_from_text_NoDup content :
  NoDup (keys (extract_keys_from_text content)).
Proof.
  rewrite extract_keys_from_text_eq. apply dict_update_NoDup. constructor.
Qed.

(** The mapping of a member holds, for each entity name, the key
    representation of the last declaration of that name in the text. *)
Lemma extract_keys_from_text_get content name :
  dict_get (extract_keys_from_text content) name =
  last_assigned name (declarations content).
Proof.
  rewrite extract_keys_from_text_eq, dict_get_update.
  now destruct (last_assigned name (declarations content)).
Qed.

Lemma key_representation_single key_value t :
  split key_value = [t] -> key_representation key_value = Single t.
Proof. unfold key_representation. now intros ->. Qed.

Lemma key_representation_multiple key_value :
  (1 < length (split key_value))%nat ->
  key_representation key_value = Multiple (split key_value).
Proof.
  unfold key_representation. intros H.
  destruct (Nat.eqb_spec (length (split key_value)) 1); [lia|reflexivity].
Qed.

(** C1: for every matched list declaration the quoted key string is
    trimmed and split at whitespace; with exactly one token the entity's
    value in the extractor's mapping is that field name as a string, with
    more than one it is the list of the tokens in declared order (the
    value is read after the last declaration of the entity name).  On
    [list Foo { key Qbar Q; }] the extractor gives [{Foo: bar}] and on
    [list Foo { key Qbar bazQ; }] it gives [{Foo: [bar, baz]}]. *)
Theorem key_clause_representation :
  (forall content before m after,
      finditer list_pattern content = before ++ m :: after ->
      (forall m', In m' after -> group m' 1 <> group m 1) ->
      let tokens := split (strip (group m 2)) in
      let stored := dict_get (extract_keys_from_text content) (group m 1) in
      Tokens (group m 2) tokens /\
      (forall t, tokens = [t] -> stored = Some (Single t)) /\
      ((1 < length tokens)%nat -> stored = Some (Multiple tokens)))
  /\ extract_keys_from_text (list_foo bar) = [(foo, Single bar)]
  /\ extract_keys_from_text (list_foo (lit "bar baz"))
     = [(foo, Multiple [bar; baz])].
Proof.
  split; [|split; vm_compute; reflexivity].
  intros content before m after Hms Hlast tokens stored.
  assert (Hstored : stored = Some (key_representation (strip (group m 2)))).
  { unfold stored. rewrite extract_keys_from_text_get.
    unfold declarations. rewrite Hms, map_app. simpl.
    rewrite last_assigned_app. simpl.
    replace (last_assigned (group m 1) (map declaration after)) with (@None key).
    - now rewrite str_eqb_refl.
    - symmetry. apply last_assigned_none. rewrite map_map. simpl.
      intros Hin. apply in_map_iff in Hin. destruct Hin as (m' & Heq & Hin).
      now apply (Hlast m'). }
  split; [|split].
  - unfold tokens. rewrite split_strip. apply split_Tokens.
  - intros t Ht. rewrite Hstored. f_equal.
    now apply key_representation_single.
  - intros Hlen. rewrite Hstored. f_equal.
    now apply key_representation_multiple.
Qed.

(** C9: [list] is recognised also as the tail of a longer keyword: on
    [list L { leaf-list a { type string; } key QidQ; }] the extractor
    returns [{a: id}]; the key goes to the leaf-list name [a] and the list
    [L] gets no entry. *)
Theorem leaf_list_takes_the_key :
  let content :=
    lit "list L { leaf-list a { type string; } key " ++ [dquote]
    ++ lit "id" ++ [dquote] ++ lit "; }" in
  extract_keys_from_text content = [(lit "a", Single (lit "id"))]
  /\ dict_get (extract_keys_from_text content) (lit "L") = None.
Proof. split; vm_compute; reflexivity. Qed.

(** C10: a key clause whose quoted string is only whitespace is stored as
    the empty list: on [list Foo { key Q Q; }] the value of [Foo] is
    neither a field name nor a non-empty sequence of field names. *)
Theorem blank_key_clause_gives_empty_list :
  let content := list_foo (lit " ") in
  map (fun m => group m 2) (finditer list_pattern content) = [lit " "]
  /\ extract_keys_from_text content = [(foo, Multiple [])].
Proof. split; vm_compute; reflexivity. Qed.

(** ** Running the script *)

Lemma follows_refl st : follows st st.
Proof. repeat split. exists []. now rewrite app_nil_r. Qed.

Lemma follows_trans st1 st2 st3 :
  follows st1 st2 -> follows st2 st3 -> follows st1 st3.
Proof.
  intros (Hl1 & Ho1 & l1 & Hg1) (Hl2 & Ho2 & l2 & Hg2).
  repeat split; try congruence.
  exists (l1 ++ l2). now rewrite Hg2, Hg1, app_assoc.
Qed.

Lemma logged_follows l msg st st' :
  logged l msg st -> follows st st' -> logged l msg st'.
Proof.
  unfold logged. intros H (_ & _ & l' & Hl). rewrite Hl.
  apply in_or_app. now left.
Qed.

Lemma logger_follows l msg st :
  exists st', logger l msg st = (Ok tt, st') /\ follows st st'.
Proof.
  unfold logger. destruct (levelno (logger_level st) <=? levelno l)%nat.
  - eexists. split; [reflexivity|]. repeat split. simpl. eauto.
  - eexists. split; [reflexivity|]. apply follows_refl.
Qed.

(** A record is kept when the logger's level is not above its own. *)
Lemma logger_logged l msg st :
  (levelno (logger_level st) <= levelno l)%nat ->
  exists st', logger l msg st = (Ok tt, st') /\ follows st st'
              /\ logged l msg st'.
Proof.
  intros Hl. unfold logger. apply Nat.leb_le in Hl. rewrite Hl.
  eexists. split; [reflexivity|]. split.
  - repeat split. simpl. eauto.
  - unfold logged. simpl. apply in_or_app. right. now left.
Qed.

Lemma levelno_error l : (levelno l <= levelno ERROR)%nat.
Proof. destruct l; simpl; lia. Qed.

Lemma bind_ok {A B} (c : M A) (f : A -> M B) st a st' :
  c st = (Ok a, st') -> bind c f st = f a st'.
Proof. unfold bind. now intros ->. Qed.

Lemma bind_raise {A B} (c : M A) (f : A -> M B) st e st' :
  c st = (Raise e, st') -> bind c f st = (Raise e, st').
Proof. unfold bind. now intros ->. Qed.

Lemma try_except_ok {A} (c : M A) h st a st' :
  c st = (Ok a, st') -> try_except c h st = (Ok a, st').
Proof. unfold try_except. now intros ->. Qed.

Lemma try_except_raise {A} (c : M A) h st e st' :
  c st = (Raise e, st') -> try_except c h st = h e st'.
Proof. unfold try_except. now intros ->. Qed.

(** A loop whose body never raises computes a fold; what its body
    establishes about an element persists to the end of the loop. *)
Lemma for_each_fold {A B} (g : B -> A -> B) (body : B -> A -> M B)
      (Q : A -> state -> Prop) (l : list A) :
  (forall acc x st, In x l -> exists st',
      body acc x st = (Ok (g acc x), st') /\ follows st st' /\ Q x st') ->
  (forall x st st', Q x st -> follows st st' -> Q x st') ->
  forall acc st, exists st',
    for_each l acc body st = (Ok (fold_left g l acc), st')
    /\ follows st st' /\ forall x, In x l -> Q x st'.
Proof.
  intros Hbody Hstable. induction l as [|x l IH]; intros acc st.
  - exists st. split; [reflexivity|]. split; [apply follows_refl|]. intros ? [].
  - destruct (Hbody acc x st) as (st1 & Hrun & Hf1 & Hq); [now left|].
    destruct (IH (fun acc y st Hy => Hbody acc y st (or_intror Hy)) (g acc x) st1)
      as (st2 & Hloop & Hf2 & Hall).
    exists st2. split; [|split].
    + simpl. erewrite bind_ok; [exact Hloop|exact Hrun].
    + eapply follows_trans; eassumption.
    + intros y [<-|Hin]; [|now apply Hall]. eapply Hstable; eassumption.
Qed.

Section RunProofs.
Variable w : world.

(** The extractor never raises: a member that cannot be read gives the
    empty mapping and an error record in the log. *)
Lemma extract_keys_using_regex_ok yang_file st :
  exists st',
    extract_keys_using_regex w yang_file st
    = (Ok (member_tables w yang_file), st')
    /\ follows st st'
    /\ (file_text w yang_file = None ->
        logged ERROR (ErrorParsing yang_file (FileError yang_file)) st').
Proof.
  unfold extract_keys_using_regex, member_tables.
  destruct (file_text w yang_file) as [content|].
  - destruct (for_each_fold record_match
                (fun tables_and_keys m =>
                   logger DEBUG
                     (FoundTable (group m 1) (split (strip (group m 2)))) ;;;
                   ret (record_match tables_and_keys m))
                (fun _ _ => True) (finditer list_pattern content))
      with (acc := @nil (str * key)) (st := st)
      as (st1 & Hloop & Hf1 & _).
    { intros acc m st0 _.
      destruct (logger_follows DEBUG
                  (FoundTable (group m 1) (split (strip (group m 2)))) st0)
        as (st0' & Hlog & Hf).
      exists st0'. erewrite bind_ok; [|exact Hlog]. auto. }
    { auto. }
    destruct (logger_follows INFO
                (ExtractedTables (length (fold_left record_match
                                            (finditer list_pattern content) []))
                                 (basename yang_file)) st1)
      as (st2 & Hlog & Hf2).
    exists st2. split; [|split].
    + erewrite bind_ok; [|apply try_except_ok; exact Hloop].
      erewrite bind_ok; [reflexivity|exact Hlog].
    + eapply follows_trans; eassumption.
    + discriminate.
  - destruct (logger_logged ERROR (ErrorParsing yang_file (FileError yang_file)) st)
      as (st1 & Hlog1 & Hf1 & Hin); [apply levelno_error|].
    destruct (logger_follows INFO (ExtractedTables 0 (basename yang_file)) st1)
      as (st2 & Hlog2 & Hf2).
    exists st2. split; [|split].
    + erewrite bind_ok;
        [|erewrite try_except_raise;
          [erewrite bind_ok; [reflexivity|exact Hlog1]|reflexivity]].
      erewrite bind_ok; [reflexivity|exact Hlog2].
    + eapply follows_trans; eassumption.
    + intros _. eapply logged_follows; eassumption.
Qed.

(** The loop of lines 105-112 never raises; it merges what each member
    contributes, in order, and announces every member. *)

Lemma parse_loop_ok yang_files acc st :
  exists st',
    for_each yang_files acc
      (fun all_tables_and_keys yang_file =>
         logger INFO (Parsing yang_file) ;;;
         try_except
           (tables_and_keys <- extract_keys_using_regex w yang_file ;;
            ret (dict_update all_tables_and_keys tables_and_keys))
           (fun e =>
              logger ERROR (ErrorParsing yang_file e) ;;;
              ret all_tables_and_keys)) st
    = (Ok (fold_left (fun all yang_file =>
                        dict_update all (member_tables w yang_file))
                     yang_files acc), st')
    /\ follows st st'
    /\ forall yang_file,
        In yang_file yang_files -> member_processed w st' yang_file.
Proof.
  apply for_each_fold
    with (Q := fun yang_file st => member_processed w st yang_file).
  - intros all yang_file st0 _.
    destruct (logger_follows INFO (Parsing yang_file) st0) as (st1 & Hlog & Hf1).
    destruct (extract_keys_using_regex_ok yang_file st1) as (st2 & Hrun & Hf2 & Herr).
    exists st2. split; [|split; [|split]].
    + erewrite bind_ok; [|exact Hlog].
      apply try_except_ok. erewrite bind_ok; [reflexivity|exact Hrun].
    + eapply follows_trans; eassumption.
    + intros Hlevel.
      assert (Hlevel0 : (levelno (logger_level st0) <= levelno INFO)%nat).
      { destruct Hf1 as (E1 & _), Hf2 as (E2 & _). now rewrite <- E1, <- E2. }
      destruct (logger_logged INFO (Parsing yang_file) st0 Hlevel0)
        as (st1' & Hlog' & _ & Hin).
      rewrite Hlog in Hlog'. injection Hlog' as <-.
      eapply logged_follows; eassumption.
    + assumption.
  - intros x st0 st0' [Hq1 Hq2] Hf. split.
    + intros Hlevel. eapply logged_follows; [apply Hq1|exact Hf].
      destruct Hf as (E & _). now rewrite <- E.
    + intros Hnone. eapply logged_follows; eauto.
Qed.

Lemma selected_fold temp_dir names acc :
  fold_left (fun yang_files file_path =>
               if is_yang_member file_path
               then yang_files ++ [path_join temp_dir file_path]
               else yang_files) names acc
  = acc ++ map (path_join temp_dir) (filter is_yang_member names).
Proof.
  revert acc. induction names as [|f names IH]; intros acc; simpl.
  - now rewrite app_nil_r.
  - rewrite IH. destruct (is_yang_member f); [|reflexivity].
    simpl. now rewrite <- app_assoc.
Qed.

(** The selector: when the archive opens and every qualifying member
    can be extracted, it returns the qualifying members in listing
    order. *)
Lemma extract_yang_files_ok zip_path temp_dir zip_ref st :
  ZipFile w zip_path = Some zip_ref ->
  (forall f, In f (namelist zip_ref) -> is_yang_member f = true ->
             extract_ok zip_ref f = true) ->
  exists st',
    extract_yang_files w zip_path temp_dir st
    = (Ok (map (path_join temp_dir)
               (filter is_yang_member (namelist zip_ref))), st')
    /\ follows st st'.
Proof.
  intros Hopen Hextract. unfold extract_yang_files, open_archive.
  rewrite Hopen.
  destruct (logger_follows DEBUG (AllFilesInZip (namelist zip_ref)) st)
    as (st1 & Hlog1 & Hf1).
  destruct (for_each_fold
              (fun yang_files file_path =>
                 if is_yang_member file_path
                 then yang_files ++ [path_join temp_dir file_path]
                 else yang_files)
              (fun yang_files file_path =>
                 if is_yang_member file_path then
                   if extract_ok zip_ref file_path then
                     logger INFO (Extracted file_path) ;;;
                     ret (yang_files ++ [path_join temp_dir file_path])
                   else raise (MemberError file_path)
                 else ret yang_files)
              (fun _ _ => True) (namelist zip_ref))
    with (acc := @nil str) (st := st1) as (st2 & Hloop & Hf2 & _).
  { intros acc f st0 Hin. destruct (is_yang_member f) eqn:E.
    - rewrite (Hextract f Hin E).
      destruct (logger_follows INFO (Extracted f) st0) as (st0' & Hlog & Hf).
      exists st0'. erewrite bind_ok; [|exact Hlog]. auto.
    - exists st0. split; [reflexivity|]. split; [apply follows_refl|exact I]. }
  { auto. }
  rewrite selected_fold in Hloop. simpl in Hloop.
  destruct (logger_follows INFO
              (TotalExtracted
                 (length (map (path_join temp_dir)
                              (filter is_yang_member (namelist zip_ref))))) st2)
    as (st3 & Hlog3 & Hf3).
  exists st3. split.
  - erewrite bind_ok; [|reflexivity].
    erewrite bind_ok; [|exact Hlog1].
    erewrite bind_ok; [|exact Hloop].
    erewrite bind_ok; [reflexivity|exact Hlog3].
  - eauto using follows_trans.
Qed.

(** The selector raises when the archive cannot be opened. *)
Lemma extract_yang_files_raise zip_path temp_dir st :
  ZipFile w zip_path = None ->
  extract_yang_files w zip_path temp_dir st
  = (Raise (ArchiveError zip_path), st).
Proof.
  intros Hopen. unfold extract_yang_files, open_archive. now rewrite Hopen.
Qed.

Lemma merged_get yang_files acc name :
  dict_get (fold_left (fun all yang_file =>
                         dict_update all (member_tables w yang_file))
                      yang_files acc) name
  = match last_assigned name (occurrences w yang_files) with
    | Some v => Some v
    | None => dict_get acc name
    end.
Proof.
  revert acc. induction yang_files as [|f fs IH]; intros acc; [reflexivity|].
  simpl. rewrite IH, last_assigned_app.
  destruct (last_assigned name (occurrences w fs)); [reflexivity|].
  rewrite dict_get_update. unfold member_tables.
  destruct (file_text w f) as [content|]; [|reflexivity].
  rewrite last_assigned_dict by apply extract_keys_from_text_NoDup.
  now rewrite extract_keys_from_text_get.
Qed.

Lemma merged_NoDup yang_files acc :
  NoDup (keys acc) ->
  NoDup (keys (fold_left (fun all yang_file =>
                            dict_update all (member_tables w yang_file))
                         yang_files acc)).
Proof.
  revert acc. induction yang_files as [|f fs IH]; intros acc Hacc;
    [assumption|].
  simpl. apply IH. now apply dict_update_NoDup.
Qed.

(** Members that cannot be read add nothing to the merge. *)
Lemma merged_readable yang_files acc :
  fold_left (fun all yang_file =>
               dict_update all (member_tables w yang_file))
            yang_files acc
  = fold_left dict_update
      (map extract_keys_from_text (readable_texts w yang_files)) acc.
Proof.
  revert acc. induction yang_files as [|f fs IH]; intros acc; [reflexivity|].
  simpl. rewrite IH. unfold member_tables.
  destruct (file_text w f); reflexivity.
Qed.

(** The run after a successful selection of at least one member. *)
Lemma run_with_members zip_path zip_ref st :
  ZipFile w zip_path = Some zip_ref ->
  (forall f, In f (namelist zip_ref) -> is_yang_member f = true ->
             extract_ok zip_ref f = true) ->
  selected w zip_ref <> [] ->
  exists st',
    extract_primary_keys_from_zip w zip_path st
    = (Ok (fold_left (fun all yang_file =>
                        dict_update all (member_tables w yang_file))
                     (selected w zip_ref) []), st')
    /\ follows st st'
    /\ forall yang_file,
        In yang_file (selected w zip_ref) -> member_processed w st' yang_file.
Proof.
  intros Hopen Hextract Hsome. unfold extract_primary_keys_from_zip.
  destruct (extract_yang_files_ok zip_path (tempdir w) zip_ref st Hopen Hextract)
    as (st1 & Hsel & Hf1).
  fold (selected w zip_ref) in Hsel.
  destruct (parse_loop_ok (selected w zip_ref) [] st1) as (st2 & Hloop & Hf2 & Hall).
  exists st2. split; [|split].
  - erewrite bind_ok; [|exact Hsel].
    destruct (selected w zip_ref) eqn:E; [congruence|].
    erewrite bind_ok; [exact Hloop|reflexivity].
  - eauto using follows_trans.
  - assumption.
Qed.

End RunProofs.

Section Runs.
Variable w : world.

Lemma dict_get_in_keys {V} (d : dict V) k v :
  dict_get d k = Some v -> In k (keys d).
Proof.
  induction d as [|[k' v'] d IH]; simpl; [discriminate|].
  destruct (str_eqb k' k) eqn:E; [|auto].
  apply str_eqb_eq in E. auto.
Qed.

(** C3: when an entity name is declared more than once in a run, by
    several selected members or within one, the final mapping has exactly
    one entry for it and its value is the key representation of the
    declaration processed last (members in archive listing order,
    declarations in textual order); the run raises nothing and the
    competing keys are not merged. *)
Theorem last_occurrence_wins zip_path zip_ref st :
  ZipFile w zip_path = Some zip_ref ->
  (forall f, In f (namelist zip_ref) -> is_yang_member f = true ->
             extract_ok zip_ref f = true) ->
  selected w zip_ref <> [] ->
  exists d st',
    extract_primary_keys_from_zip w zip_path st = (Ok d, st')
    /\ NoDup (keys d)
    /\ (forall name,
           dict_get d name
           = last_assigned name (occurrences w (selected w zip_ref)))
    /\ (forall name,
           In name (map fst (occurrences w (selected w zip_ref))) ->
           count_occ (list_eq_dec N.eq_dec) (keys d) name = 1%nat).
Proof.
  intros Hopen Hextract Hsome.
  destruct (run_with_members w zip_path zip_ref st Hopen Hextract Hsome)
    as (st' & Hrun & _ & _).
  eexists. exists st'. split; [exact Hrun|].
  assert (Hnodup : NoDup (keys (fold_left
             (fun all yang_file => dict_update all (member_tables w yang_file))
             (selected w zip_ref) []))).
  { apply merged_NoDup. constructor. }
  assert (Hget : forall name,
             dict_get (fold_left
               (fun all yang_file => dict_update all (member_tables w yang_file))
               (selected w zip_ref) []) name
             = last_assigned name (occurrences w (selected w zip_ref))).
  { intros name. rewrite merged_get.
    now destruct (last_assigned name (occurrences w (selected w zip_ref))). }
  split; [exact Hnodup|]. split; [exact Hget|].
  intros name Hin.
  apply NoDup_count_occ'; [exact Hnodup|].
  destruct (last_assigned name (occurrences w (selected w zip_ref))) as [v|] eqn:E.
  - apply dict_get_in_keys with (v := v). now rewrite Hget.
  - apply last_assigned_none in E. contradiction.
Qed.

(** C5: a selected member whose file cannot be opened or read makes the
    extractor fail inside its own handler: the failure is logged, the
    member contributes the empty mapping, and every member, also the
    later ones, is processed; the final mapping is the merge of the
    mappings of the members that could be read. *)
Theorem member_failures_are_isolated zip_path zip_ref st :
  ZipFile w zip_path = Some zip_ref ->
  (forall f, In f (namelist zip_ref) -> is_yang_member f = true ->
             extract_ok zip_ref f = true) ->
  selected w zip_ref <> [] ->
  exists st',
    extract_primary_keys_from_zip w zip_path st
    = (Ok (merge (map extract_keys_from_text
                      (readable_texts w (selected w zip_ref)))), st')
    /\ forall yang_file,
        In yang_file (selected w zip_ref) ->
        ((levelno (logger_level st) <= levelno INFO)%nat ->
         logged INFO (Parsing yang_file) st')
        /\ (file_text w yang_file = None ->
            logged ERROR (ErrorParsing yang_file (FileError yang_file)) st'
            /\ forall st0, exists st0',
                extract_keys_using_regex w yang_file st0 = (Ok [], st0')).
Proof.
  intros Hopen Hextract Hsome.
  destruct (run_with_members w zip_path zip_ref st Hopen Hextract Hsome)
    as (st' & Hrun & Hf & Hall).
  exists st'. split.
  - rewrite Hrun, merged_readable. reflexivity.
  - intros yang_file Hin. destruct (Hall yang_file Hin) as [Hparse Herr].
    split.
    + intros Hlevel. apply Hparse. destruct Hf as (E & _). now rewrite E.
    + intros Hnone. split; [now apply Herr|].
      intros st0.
      destruct (extract_keys_using_regex_ok w yang_file st0) as (st0' & H0 & _).
      exists st0'. rewrite H0. unfold member_tables. now rewrite Hnone.
Qed.

Lemma extract_primary_keys_from_zip_raise zip_path st :
  ZipFile w zip_path = None ->
  extract_primary_keys_from_zip w zip_path st
  = (Raise (ArchiveError zip_path), st).
Proof.
  intros Hopen. unfold extract_primary_keys_from_zip.
  erewrite bind_raise; [reflexivity|].
  now apply extract_yang_files_raise.
Qed.

Lemma setLevel_out args st :
  exists st0,
    (if verbose args then setLevel DEBUG else ret tt) st = (Ok tt, st0)
    /\ out st0 = out st /\ log st0 = log st.
Proof. destruct (verbose args); eexists; repeat split; reflexivity. Qed.

(** C6: when the archive is missing, unreadable or not a valid archive,
    the run aborts: [main] returns the exit status 1 and writes no
    mapping, neither to the output file nor to the standard output. *)
Theorem unreadable_archive_aborts args st :
  ZipFile w (zip_file args) = None ->
  exists st',
    main w args st = (Ok 1%nat, st')
    /\ out st' = out st
    /\ logged ERROR (ErrorMessage (ArchiveError (zip_file args))) st'.
Proof.
  intros Hopen. unfold main.
  destruct (setLevel_out args st) as (st0 & Hset & Hout0 & _).
  destruct (logger_logged ERROR (ErrorMessage (ArchiveError (zip_file args))) st0)
    as (st1 & Hlog & (_ & Hout1 & _) & Hin); [apply levelno_error|].
  exists st1. split; [|split].
  - erewrite bind_ok; [|exact Hset].
    erewrite try_except_raise;
      [|erewrite bind_raise;
        [reflexivity|now apply extract_primary_keys_from_zip_raise]].
    erewrite bind_ok; [reflexivity|exact Hlog].
  - congruence.
  - assumption.
Qed.


(** A write that completes adds its document to the output. *)
Lemma write_done o st :
  write_ok w o = true ->
  write w o st = (Ok tt, {| logger_level := logger_level st; log := log st;
                            out := out st ++ [o] |}).
Proof. intros Ho. unfold write. now rewrite Ho. Qed.

(** A write that does not complete raises and adds nothing. *)
Lemma write_failed o st :
  write_ok w o = false ->
  write w o st = (Raise (WriteError (destination o)), st).
Proof. intros Ho. unfold write. now rewrite Ho. Qed.


(** When the diagnostic cannot read the member it picked, its exception
    leaves [extract_primary_keys_from_zip] and [main] exits with status 1
    without writing a mapping. *)
Lemma sample_failure_aborts args zip_ref f st :
  ZipFile w (zip_file args) = Some zip_ref ->
  filter is_yang_member (namelist zip_ref) = [] ->
  sample_member zip_ref = Some f ->
  read500 zip_ref f = None ->
  exists st',
    main w args st = (Ok 1%nat, st')
    /\ out st' = out st
    /\ logged ERROR (ErrorMessage (MemberError f)) st'.
Proof.
  intros Hopen Hnone Hsample Hread. unfold main.
  destruct (setLevel_out args st) as (st0 & Hset & Hout0 & _).
  destruct (extract_yang_files_ok w (zip_file args) (tempdir w) zip_ref st0 Hopen)
    as (st1 & Hsel & (_ & Hout1 & _)).
  { intros f' Hin Hy. exfalso.
    assert (Hf : In f' (filter is_yang_member (namelist zip_ref)))
      by (apply filter_In; auto).
    now rewrite Hnone in Hf. }
  rewrite Hnone in Hsel. simpl in Hsel.
  destruct (logger_follows WARNING NoYangFilesFound st1)
    as (st2 & Hlog2 & (_ & Hout2 & _)).
  destruct (logger_follows INFO (ExaminingSample f) st2)
    as (st3 & Hlog3 & (_ & Hout3 & _)).
  destruct (logger_logged ERROR (ErrorMessage (MemberError f)) st3)
    as (st4 & Hlog4 & (_ & Hout4 & _) & Hin); [apply levelno_error|].
  exists st4. split; [|split].
  - erewrite bind_ok; [|exact Hset].
    erewrite try_except_raise.
    + erewrite bind_ok; [reflexivity|exact Hlog4].
    + erewrite bind_raise; [reflexivity|].
      unfold extract_primary_keys_from_zip.
      erewrite bind_ok; [|exact Hsel].
      erewrite bind_raise; [reflexivity|].
      erewrite bind_ok; [|exact Hlog2].
      unfold examine_sample, open_archive. rewrite Hopen.
      erewrite bind_ok; [|reflexivity]. cbv beta. rewrite Hsample.
      erewrite bind_ok; [|exact Hlog3]. now rewrite Hread.
  - congruence.
  - assumption.
Qed.
End Runs.

(** ** The matcher against a declarative reading of patterns *)

Section RepeatProofs.
Variable R : Type.
Variable cls : char -> bool.
Variable lo : nat.
Variable k : str -> option R.

Lemma rep_greedy_sound n s r :
  rep_greedy cls lo k n s = Some r ->
  exists x s', s = x ++ s' /\ Forall (fun c => cls c = true) x
               /\ (lo <= n + length x)%nat /\ k s' = Some r.
Proof.
  revert n. induction s as [|c s IH]; intros n; simpl.
  - destruct (Nat.leb_spec lo n); [|discriminate]. intros Hk.
    exists [], []. simpl. repeat split; auto. lia.
  - destruct (cls c) eqn:Ec.
    + destruct (rep_greedy cls lo k (S n) s) as [r'|] eqn:Er.
      * intros [= <-]. destruct (IH _ Er) as (x & s' & -> & Hx & Hn & Hk).
        exists (c :: x), s'. simpl. repeat split; auto. lia.
      * destruct (Nat.leb_spec lo n); [|discriminate]. intros Hk.
        exists [], (c :: s). simpl. repeat split; auto. lia.
    + destruct (Nat.leb_spec lo n); [|discriminate]. intros Hk.
      exists [], (c :: s). simpl. repeat split; auto. lia.
Qed.

Lemma rep_lazy_sound n s r :
  rep_lazy cls lo k n s = Some r ->
  exists x s', s = x ++ s' /\ Forall (fun c => cls c = true) x
               /\ (lo <= n + length x)%nat /\ k s' = Some r.
Proof.
  revert n. induction s as [|c s IH]; intros n; simpl.
  - destruct (Nat.leb_spec lo n).
    + destruct (k []) eqn:Ek; [|discriminate]. intros [= <-].
      exists [], []. simpl. repeat split; auto. lia.
    + discriminate.
  - assert (Hmore : (if cls c then rep_lazy cls lo k (S n) s else None) = Some r ->
                    exists x s', c :: s = x ++ s'
                                 /\ Forall (fun c => cls c = true) x
                                 /\ (lo <= n + length x)%nat /\ k s' = Some r).
    { destruct (cls c) eqn:Ec; [|discriminate]. intros Er.
      destruct (IH _ Er) as (x & s' & -> & Hx & Hn & Hk).
      exists (c :: x), s'. simpl. repeat split; auto. lia. }
    destruct (Nat.leb_spec lo n); [|exact Hmore].
    destruct (k (c :: s)) eqn:Ek; [|exact Hmore]. intros [= <-].
    exists [], (c :: s). simpl. repeat split; auto. lia.
Qed.

Lemma rep_greedy_here n s :
  (lo <= n)%nat -> k s <> None -> rep_greedy cls lo k n s <> None.
Proof.
  intros Hn Hk. apply Nat.leb_le in Hn.
  destruct s as [|c s]; simpl; rewrite Hn; [assumption|].
  destruct (cls c); [|assumption].
  destruct (rep_greedy cls lo k (S n) s); [discriminate|assumption].
Qed.

Lemma rep_greedy_complete x : forall n s,
  Forall (fun c => cls c = true) x -> (lo <= n + length x)%nat ->
  k s <> None -> rep_greedy cls lo k n (x ++ s) <> None.
Proof.
  induction x as [|c x IH]; intros n s Hx Hn Hk.
  - simpl in *. apply rep_greedy_here; [lia|assumption].
  - inversion Hx as [|? ? Hc Hx']; subst. simpl. rewrite Hc.
    specialize (IH (S n) s Hx'). simpl in Hn.
    destruct (rep_greedy cls lo k (S n) (x ++ s)); [discriminate|].
    exfalso. apply IH; auto. lia.
Qed.

Lemma rep_lazy_here n s :
  (lo <= n)%nat -> k s <> None -> rep_lazy cls lo k n s <> None.
Proof.
  intros Hn Hk. apply Nat.leb_le in Hn.
  destruct s as [|c s]; simpl; rewrite Hn.
  - destruct (k []); [discriminate|congruence].
  - destruct (k (c :: s)); [discriminate|congruence].
Qed.

Lemma rep_lazy_complete x : forall n s,
  Forall (fun c => cls c = true) x -> (lo <= n + length x)%nat ->
  k s <> None -> rep_lazy cls lo k n (x ++ s) <> None.
Proof.
  induction x as [|c x IH]; intros n s Hx Hn Hk.
  - simpl in *. apply rep_lazy_here; [lia|assumption].
  - inversion Hx as [|? ? Hc Hx']; subst. simpl. rewrite Hc.
    specialize (IH (S n) s Hx'). simpl in Hn.
    destruct (if (lo <=? n)%nat then k (c :: x ++ s) else None);
      [discriminate|].
    apply IH; auto. lia.
Qed.


End RepeatProofs.

Lemma run_sound p : forall mk s r mk',
  run p mk s = Some (r, mk') -> Matches p s r.
Proof.
  induction p as [|[c|[] lo cls|g|g|] p IH]; intros mk s r mk'; simpl.
  - intros [= -> _]. constructor.
  - destruct s as [|x s]; [discriminate|].
    destruct (N.eqb_spec x c); [|discriminate]. subst. intros H.
    constructor. eauto.
  - intros H. apply rep_greedy_sound in H.
    destruct H as (x & s' & -> & Hx & Hn & Hk).
    constructor; eauto.
  - intros H. apply rep_lazy_sound in H.
    destruct H as (x & s' & -> & Hx & Hn & Hk).
    constructor; eauto.
  - intros H. constructor. eauto.
  - intros H. constructor. eauto.
  - destruct s as [|c [|c' s]].
    + intros H. constructor; eauto.
    + destruct (N.eqb_spec c newline); [|discriminate]. subst.
      intros H. constructor; eauto.
    + discriminate.
Qed.

Lemma run_complete p : forall s r,
  Matches p s r -> forall mk, run p mk s <> None.
Proof.
  induction 1 as [s|c p s r _ IH|g lo cls p x s r Hx Hlo _ IH
                  |g p s r _ IH|g p s r _ IH|p s r Hs _ IH]; intros mk; simpl.
  - discriminate.
  - rewrite N.eqb_refl. apply IH.
  - destruct g.
    + apply rep_greedy_complete; auto.
    + apply rep_lazy_complete; auto.
  - apply IH.
  - apply IH.
  - destruct Hs as [->| ->]; [apply IH|].
    unfold newline at 1. simpl. apply IH.
Qed.

(** ** The member selector *)

Lemma endswith_iff s suffix :
  endswith s suffix = true <-> exists q, s = q ++ suffix.
Proof.
  unfold endswith. rewrite andb_true_iff, str_eqb_eq, Nat.leb_le. split.
  - intros [Hskip Hlen]. exists (firstn (length s - length suffix) s).
    rewrite <- (firstn_skipn (length s - length suffix) s) at 1.
    now f_equal.
  - intros (q & ->). rewrite length_app. split; [|lia].
    replace (length q + length suffix - length suffix)%nat with (length q) by lia.
    now rewrite skipn_app, skipn_all, Nat.sub_diag.
Qed.

(** Only the end of a string decides [endswith]. *)
Lemma endswith_app s t suffix :
  (length suffix <= length t)%nat ->
  endswith (s ++ t) suffix = endswith t suffix.
Proof.
  intros Hlen. unfold endswith. rewrite length_app, skipn_app.
  rewrite skipn_all2 by lia.
  replace (length s + length t - length suffix - length s)%nat
    with (length t - length suffix)%nat by lia.
  simpl. f_equal.
  destruct (Nat.leb_spec (length suffix) (length s + length t)),
           (Nat.leb_spec (length suffix) (length t)); auto; lia.
Qed.

Lemma contains_iff c s : contains c s = true <-> In c s.
Proof.
  unfold contains. rewrite existsb_exists. split.
  - intros (x & Hin & Hx). apply N.eqb_eq in Hx. now subst.
  - intros Hin. exists c. split; [assumption|apply N.eqb_refl].
Qed.

Lemma contains_false c s : contains c s = false <-> ~ In c s.
Proof.
  rewrite <- contains_iff. destruct (contains c s); split; congruence.
Qed.

Lemma basename_no_slash y : ~ In slash y -> basename y = y.
Proof.
  intros H. apply contains_false in H.
  destruct y; [reflexivity|]. unfold basename. now rewrite H.
Qed.

Lemma contains_app c x y :
  contains c (x ++ y) = contains c x || contains c y.
Proof. apply existsb_app. Qed.

(** The base name keeps a suffix that has no slash. *)
Lemma basename_app x y :
  ~ In slash y -> basename (x ++ y) = basename x ++ y.
Proof.
  intros Hy. induction x as [|c x IH].
  - now apply basename_no_slash.
  - assert (Hc : contains slash ((c :: x) ++ y) = contains slash (c :: x)).
    { rewrite contains_app. apply contains_false in Hy. rewrite Hy.
      apply orb_false_r. }
    change (basename ((c :: x) ++ y))
      with (if contains slash ((c :: x) ++ y) then basename (x ++ y)
            else (c :: x) ++ y).
    change (basename (c :: x))
      with (if contains slash (c :: x) then basename x else c :: x).
    rewrite Hc. now destruct (contains slash (c :: x)).
Qed.

Lemma basename_suffix p : exists d, p = d ++ basename p.
Proof.
  induction p as [|c p (d & Hd)]; [now exists []|].
  change (basename (c :: p))
    with (if contains slash (c :: p) then basename p else c :: p).
  destruct (contains slash (c :: p)).
  - exists (c :: d). simpl. congruence.
  - now exists [].
Qed.

Lemma is_not_iff c x : is_not c x = true <-> x <> c.
Proof.
  unfold is_not. destruct (N.eqb_spec x c); simpl; split; congruence.
Qed.

(** What the pattern of the selector accepts: some text with a hyphen in
    it, then [.yang], then the end of the string or one last newline;
    the dot does not pass a newline. *)
Lemma yang_pattern_Matches p r :
  Matches yang_pattern p r <->
  exists a b,
    p = a ++ hyphen :: b ++ lit ".yang" ++ r
    /\ Forall not_newline a /\ Forall not_newline b
    /\ (r = [] \/ r = [newline]).
Proof.
  split.
  - intros H. unfold yang_pattern, lits in H. simpl in H.
    inversion H as [| |g lo cls q a s1 r1 Ha _ H1| | |]; subst; clear H.
    inversion H1 as [|c q s2 r2 H2| | | |]; subst; clear H1.
    inversion H2 as [| |g lo cls q b s3 r3 Hb _ H3| | |]; subst; clear H2.
    inversion H3 as [|c q s4 r4 H4| | | |]; subst; clear H3.
    inversion H4 as [|c q s5 r5 H5| | | |]; subst; clear H4.
    inversion H5 as [|c q s6 r6 H6| | | |]; subst; clear H5.
    inversion H6 as [|c q s7 r7 H7| | | |]; subst; clear H6.
    inversion H7 as [|c q s8 r8 H8| | | |]; subst; clear H7.
    inversion H8 as [| | | | |q s9 r9 Hend H9]; subst; clear H8.
    inversion H9; subst; clear H9.
    exists a, b. repeat split; auto.
  - intros (a & b & -> & Ha & Hb & Hr).
    unfold yang_pattern, lits. simpl.
    apply Matches_rep; [exact Ha|lia|]. apply Matches_lit.
    apply Matches_rep; [exact Hb|lia|]. simpl.
    do 5 apply Matches_lit. apply Matches_dollar; [exact Hr|constructor].
Qed.

Lemma yang_pattern_match p :
  re_match yang_pattern p <> None <->
  exists a b tail,
    p = a ++ hyphen :: b ++ lit ".yang" ++ tail
    /\ Forall not_newline a /\ Forall not_newline b
    /\ (tail = [] \/ tail = [newline]).
Proof.
  split.
  - destruct (re_match yang_pattern p) as [[r mk]|] eqn:E; [|congruence].
    intros _. apply run_sound in E. apply yang_pattern_Matches in E.
    destruct E as (a & b & H). exists a, b, r. exact H.
  - intros (a & b & tail & H). apply run_complete with (r := tail).
    apply yang_pattern_Matches. exists a, b. exact H.
Qed.

Lemma is_yang_member_spec p :
  is_yang_member p = true <->
  re_match yang_pattern p <> None
  /\ endswith p [slash] = false /\ contains hyphen (basename p) = true.
Proof.
  unfold is_yang_member. destruct (re_match yang_pattern p).
  - rewrite andb_true_iff, negb_true_iff. split.
    + intros [? ?]. repeat split; auto. discriminate.
    + tauto.
  - split; [discriminate|]. intros [H _]. congruence.
Qed.

Lemma Forall_not_newline s : ~ In newline s -> Forall not_newline s.
Proof.
  intros H. apply Forall_forall. intros c Hc. apply is_not_iff.
  intros ->. contradiction.
Qed.

(** The selector on paths without a newline: a member is selected exactly
    when its path ends in [.yang], is not a directory entry, and its base
    name has a hyphen before the extension. *)
Lemma is_yang_member_iff p :
  ~ In newline p ->
  (is_yang_member p = true <->
   endswith p (lit ".yang") = true /\ endswith p [slash] = false
   /\ exists stem, basename p = stem ++ lit ".yang" /\ In hyphen stem).
Proof.
  intros Hnl. rewrite is_yang_member_spec, yang_pattern_match.
  assert (Hext : ~ In slash (lit ".yang")).
  { vm_compute. intuition discriminate. }
  split.
  - intros ((a & b & tail & Hp & Ha & Hb & Htail) & Hslash & Hhyphen).
    assert (tail = []) as ->.
    { destruct Htail as [->| ->]; [reflexivity|]. exfalso. apply Hnl.
      rewrite Hp. apply in_or_app. right. right.
      apply in_or_app. right. apply in_or_app. right. now left. }
    rewrite app_nil_r in Hp.
    assert (Hp' : p = (a ++ hyphen :: b) ++ lit ".yang").
    { rewrite Hp, <- app_assoc. reflexivity. }
    split; [apply endswith_iff; eauto|]. split; [assumption|].
    exists (basename (a ++ hyphen :: b)).
    rewrite Hp' in Hhyphen |- *. rewrite basename_app in * by assumption.
    split; [reflexivity|].
    apply contains_iff in Hhyphen. apply in_app_or in Hhyphen.
    destruct Hhyphen as [H|H]; [assumption|].
    vm_compute in H. intuition discriminate.
  - intros (Hend & Hslash & stem & Hbase & Hin).
    apply endswith_iff in Hend. destruct Hend as (q & ->).
    rewrite basename_app in Hbase by assumption.
    apply app_inv_tail in Hbase. subst stem.
    destruct (basename_suffix q) as (d & Hq).
    assert (Hq' : In hyphen q).
    { rewrite Hq. apply in_or_app. now right. }
    apply in_split in Hq'. destruct Hq' as (a & b & ->).
    split; [|split; [assumption|]].
    + exists a, b, []. rewrite app_nil_r, <- app_assoc. simpl.
      split; [reflexivity|].
      split; [|split; [|now left]]; apply Forall_not_newline; intros H;
        apply Hnl; apply in_or_app; left; apply in_or_app; [now left|].
      right. now right.
    + rewrite basename_app by assumption. apply contains_iff.
      apply in_or_app. now left.
Qed.

(** C2: the selector does not hold the extension to the very end of the
    path.  [a-b.yang] followed by a newline is selected although it does
    not end in [.yang], and a path that ends in [.yang], is not a directory
    entry and has a hyphen in its base name is rejected when a newline
    stands before the hyphen. *)
Theorem newline_breaks_the_selector :
  let p := lit "a-b.yang" ++ [newline] in
  let q := lit "a" ++ [newline] ++ lit "-b.yang" in
  (is_yang_member p = true /\ endswith p (lit ".yang") = false)
  /\ (is_yang_member q = false /\ endswith q (lit ".yang") = true
      /\ endswith q [slash] = false
      /\ basename q = (lit "a" ++ [newline] ++ lit "-b") ++ lit ".yang"
      /\ contains hyphen (lit "a" ++ [newline] ++ lit "-b") = true).
Proof. vm_compute. repeat split. Qed.

(** Names of the form prefix-name.yang are selected and names of the form
    version.yang are not, whatever the directory they are in. *)
Lemma selector_on_conventional_names dir prefix name :
  ~ In newline (dir ++ prefix ++ name) ->
  ~ In slash (prefix ++ name) -> ~ In hyphen prefix -> ~ In hyphen name ->
  (dir = [] \/ exists d, dir = d ++ [slash]) ->
  is_yang_member (dir ++ prefix ++ hyphen :: name ++ lit ".yang") = true
  /\ is_yang_member (dir ++ prefix ++ lit ".yang") = false.
Proof.
  intros Hnl Hslash Hp Hn Hdir.
  assert (Hbase : forall x, ~ In slash x -> basename (dir ++ x) = x).
  { intros x Hx. rewrite basename_app by assumption.
    destruct Hdir as [->|(d & ->)]; [reflexivity|].
    replace (basename (d ++ [slash])) with (@nil char); [reflexivity|].
    clear. induction d as [|c d IH].
    - reflexivity.
    - change (basename ((c :: d) ++ [slash]))
        with (if contains slash ((c :: d) ++ [slash])
              then basename (d ++ [slash]) else (c :: d) ++ [slash]).
      assert (H : contains slash ((c :: d) ++ [slash]) = true).
      { apply contains_iff. apply in_or_app. right. now left. }
      now rewrite H. }
  assert (Hext : ~ In slash (lit ".yang")) by (vm_compute; intuition discriminate).
  assert (Hexth : ~ In hyphen (lit ".yang")) by (vm_compute; intuition discriminate).
  assert (Hextn : ~ In newline (lit ".yang")) by (vm_compute; intuition discriminate).
  split.
  - apply is_yang_member_iff.
    + rewrite !in_app_iff in *. simpl. rewrite !in_app_iff.
      intros [H|[H|[H|[H|H]]]]; try tauto. discriminate.
    + split; [|split].
      * apply endswith_iff. exists (dir ++ prefix ++ hyphen :: name).
        now rewrite <- !app_assoc.
      * replace (dir ++ prefix ++ hyphen :: name ++ lit ".yang")
          with ((dir ++ prefix ++ hyphen :: name) ++ lit ".yang")
          by now rewrite <- !app_assoc.
        rewrite endswith_app; [reflexivity|simpl; lia].
      * exists (prefix ++ hyphen :: name). split.
        -- rewrite <- app_assoc. simpl. apply Hbase.
           rewrite !in_app_iff in *. simpl. rewrite in_app_iff.
           intros [H|[H|[H|H]]]; try tauto. discriminate.
        -- apply in_or_app. right. now left.
  - destruct (is_yang_member (dir ++ prefix ++ lit ".yang")) eqn:E;
      [|reflexivity].
    apply is_yang_member_spec in E. destruct E as (_ & _ & E).
    rewrite Hbase in E.
    + apply contains_iff in E. apply in_app_or in E. tauto.
    + rewrite in_app_iff in *. tauto.
Qed.

(** ** The declaration pattern *)

Lemma split_at_first (c : char) a : forall a' t t',
  ~ In c a -> ~ In c a' -> a ++ c :: t = a' ++ c :: t' -> a = a' /\ t = t'.
Proof.
  induction a as [|x a IH]; intros [|x' a'] t t' Ha Ha' E; simpl in *.
  - injection E as ->. auto.
  - injection E as <- _. tauto.
  - injection E as -> _. tauto.
  - injection E as <- E. destruct (IH a' t t') as [-> ->]; auto.
Qed.

Lemma spaces_have_no (c : char) ws :
  isspace c = false -> Forall (fun x => isspace x = true) ws -> ~ In c ws.
Proof.
  intros Hc Hws Hin. rewrite Forall_forall in Hws.
  specialize (Hws c Hin). congruence.
Qed.

Lemma firstn_app_exact (a b : str) :
  firstn (length (a ++ b) - length b) (a ++ b) = a.
Proof.
  rewrite length_app.
  replace (length a + length b - length b)%nat with (length a) by lia.
  rewrite firstn_app, Nat.sub_diag, firstn_all. simpl. apply app_nil_r.
Qed.




(** No key clause begins in a text without a double quote that [key],
    whitespace and a double quote follow. *)
Lemma no_clause_without_quote body ws3 tail :
  ~ In dquote body -> Forall (fun c => isspace c = true) ws3 ->
  forall x1 x2, body = x1 ++ x2 -> x2 <> [] ->
                ~ key_clause_at (x2 ++ lit "key" ++ ws3 ++ dquote :: tail).
Proof.
  intros Hq Hsp x1 x2 -> Hx2 (w & x & r & E & _ & Hw & _).
  assert (Hxq : ~ In dquote x2)
    by (intros H; apply Hq, in_or_app; now right).
  assert (Hkey : ~ In dquote (107 :: 101 :: 121 :: w)).
  { simpl. intros [H|[H|[H|H]]]; try discriminate.
    revert H. now apply spaces_have_no. }
  assert (Hpre : ~ In dquote (x2 ++ lit "key" ++ ws3)).
  { rewrite !in_app_iff. intros [H|[H|H]]; [tauto| |].
    - vm_compute in H. intuition discriminate.
    - revert H. now apply spaces_have_no. }
  assert (Heq : (107 :: 101 :: 121 :: w) ++ dquote :: x ++ dquote :: r
                = (x2 ++ lit "key" ++ ws3) ++ dquote :: tail).
  { rewrite <- !app_assoc. simpl. symmetry. exact E. }
  apply split_at_first in Heq; [|assumption|assumption].
  destruct Heq as [Heq _].
  assert (Hk : isspace 107 = false) by reflexivity.
  assert (Hnk : ~ In 107 w) by now apply spaces_have_no.
  destruct x2 as [|c0 [|c1 [|c2 [|c3 x2]]]]; [congruence| | | |];
    simpl in Heq; injection Heq as E0 E1 E2 E3; subst;
    try discriminate; apply Hnk.
  - now left.
  - right. apply in_or_app. right. now left.
Qed.

Section Declarations.
(** Whitespace characters are not alphanumeric. *)
Hypothesis space_not_alnum :
  forall c, isspace c = true -> isalnum_table c = false.



End Declarations.

Lemma Matches_suffix p s r : Matches p s r -> exists x, s = x ++ r.
Proof.
  induction 1 as [s|c p s r _ [x ->]|g lo cls p y s r _ _ _ [x ->]
                  |g p s r _ IH|g p s r _ IH|p s r _ _ IH]; auto.
  - now exists [].
  - now exists (c :: x).
  - exists (y ++ x). now rewrite app_assoc.
Qed.

(** A match of the declaration pattern is never empty. *)
Lemma list_pattern_consumes s rest m :
  re_match list_pattern s = Some (rest, m) -> (length rest < length s)%nat.
Proof.
  intros H. apply run_sound in H. unfold list_pattern, lits in H. simpl in H.
  inversion H as [|c q s1 r1 H1| | | |]; subst.
  apply Matches_suffix in H1. destruct H1 as (x & ->).
  simpl. rewrite length_app. lia.
Qed.




(** C7: the diagnostic of a run without qualifying members is not
    harmless.  On a readable archive whose only member, [1.0.yang], cannot
    be read, no member qualifies, the warning is logged, and then the
    sample read raises: [main] exits with status 1 and writes no
    mapping. *)
Theorem unreadable_sample_aborts_the_run :
  let args := {| zip_file := lit "schemas.zip"; output_path := None;
                 verbose := false |} in
  let run := main encrypted_world args start in
  filter is_yang_member (namelist encrypted_archive) = []
  /\ fst run = Ok 1%nat
  /\ out (snd run) = []
  /\ log (snd run)
     = [(INFO, TotalExtracted 0);
        (WARNING, NoYangFilesFound);
        (INFO, ExaminingSample (lit "1.0.yang"));
        (ERROR, ErrorMessage (MemberError (lit "1.0.yang")))].
Proof. vm_compute. repeat split. Qed.

(** ** The output document read back *)

Lemma hex_value_digit d : d < 16 -> hex_value (hex_digit d) = Some d.
Proof.
  intros Hd.
  assert (H : d = 0 \/ d = 1 \/ d = 2 \/ d = 3 \/ d = 4 \/ d = 5 \/ d = 6
              \/ d = 7 \/ d = 8 \/ d = 9 \/ d = 10 \/ d = 11 \/ d = 12
              \/ d = 13 \/ d = 14 \/ d = 15) by lia.
  repeat (destruct H as [->|H]; [reflexivity|]). now subst.
Qed.

Lemma hex_digits_value n :
  n < 0x10000 ->
  ((n / 4096 mod 16 * 16 + n / 256 mod 16) * 16 + n / 16 mod 16) * 16
  + n mod 16 = n.
Proof.
  intros Hn.
  assert (H1 := N.div_mod n 16 ltac:(discriminate)).
  assert (H2 := N.div_mod (n / 16) 16 ltac:(discriminate)).
  assert (H3 := N.div_mod (n / 256) 16 ltac:(discriminate)).
  replace (n / 16 / 16) with (n / 256) in H2
    by (rewrite N.Div0.div_div; reflexivity).
  replace (n / 256 / 16) with (n / 4096) in H3
    by (rewrite N.Div0.div_div; reflexivity).
  assert (H4 : n / 4096 < 16) by (apply N.Div0.div_lt_upper_bound; lia).
  rewrite (N.mod_small (n / 4096) 16) by assumption.
  lia.
Qed.

Lemma decode_hex4_hex4 n rest :
  n < 0x10000 -> decode_hex4 (hex4 n ++ rest) = Some (n, rest).
Proof.
  intros Hn. unfold hex4, decode_hex4. simpl.
  rewrite !hex_value_digit by (apply N.mod_lt; discriminate).
  now rewrite hex_digits_value.
Qed.

Lemma lor_pow2_low a b n : b < 2 ^ n -> N.lor (a * 2 ^ n) b = a * 2 ^ n + b.
Proof.
  intros Hb.
  assert (Hland : N.land (a * 2 ^ n) b = 0).
  { apply N.bits_inj. intros m. rewrite N.land_spec, N.bits_0.
    destruct (N.lt_ge_cases m n) as [Hm|Hm].
    - now rewrite N.mul_pow2_bits_low.
    - rewrite <- (N.mod_small b (2 ^ n)) by assumption.
      rewrite N.mod_pow2_bits_high by assumption. apply andb_false_r. }
  rewrite N.add_nocarry_lxor by assumption. symmetry. now apply N.lxor_lor.
Qed.

(** A code point above U+FFFF is written as a high and a low surrogate,
    which the decoder joins again. *)
Lemma surrogate_pair c :
  0x10000 <= c < 0x110000 ->
  let v := c - 0x10000 in
  let s1 := N.lor 0xD800 (N.land (N.shiftr v 10) 0x3FF) in
  let s2 := N.lor 0xDC00 (N.land v 0x3FF) in
  s1 < 0x10000 /\ s2 < 0x10000
  /\ is_high_surrogate s1 = true /\ is_low_surrogate s2 = true
  /\ 0x10000 + N.lor (N.shiftl (s1 - 0xD800) 10) (s2 - 0xDC00) = c.
Proof.
  intros Hc v s1 s2.
  assert (Hv : v < 1048576) by (unfold v; lia).
  set (hi := N.land (N.shiftr v 10) 0x3FF) in *.
  set (lo := N.land v 0x3FF) in *.
  assert (Hhi : hi = v / 1024).
  { unfold hi. change 0x3FF with (N.ones 10).
    rewrite N.land_ones, N.shiftr_div_pow2. change (2 ^ 10) with 1024.
    apply N.mod_small. apply N.Div0.div_lt_upper_bound. lia. }
  assert (Hlo : lo = v mod 1024).
  { unfold lo. change 0x3FF with (N.ones 10). apply N.land_ones. }
  assert (Hhi' : hi < 1024).
  { rewrite Hhi. apply N.Div0.div_lt_upper_bound. lia. }
  assert (Hlo' : lo < 1024).
  { rewrite Hlo. apply N.mod_lt. discriminate. }
  assert (Hs1 : s1 = 55296 + hi).
  { unfold s1. change 0xD800 with (54 * 2 ^ 10).
    rewrite lor_pow2_low by exact Hhi'. reflexivity. }
  assert (Hs2 : s2 = 56320 + lo).
  { unfold s2. change 0xDC00 with (55 * 2 ^ 10).
    rewrite lor_pow2_low by exact Hlo'. reflexivity. }
  assert (Hdm := N.div_mod v 1024 ltac:(discriminate)).
  rewrite <- Hhi, <- Hlo in Hdm.
  assert (Hjoin : N.lor (N.shiftl (s1 - 0xD800) 10) (s2 - 0xDC00) = v).
  { replace (s1 - 0xD800) with hi by lia.
    replace (s2 - 0xDC00) with lo by lia.
    rewrite N.shiftl_mul_pow2, lor_pow2_low by exact Hlo'.
    change (2 ^ 10) with 1024. lia. }
  unfold is_high_surrogate, is_low_surrogate.
  rewrite Hjoin.
  repeat split; try lia;
    try (apply andb_true_iff; split; apply N.leb_le; lia).
Qed.

Lemma scalar_not_high_surrogate c : scalar c -> is_high_surrogate c = false.
Proof.
  intros [_ Hc]. unfold is_high_surrogate.
  destruct (N.leb_spec 0xD800 c), (N.leb_spec c 0xDBFF); simpl; auto.
  exfalso. apply Hc. lia.
Qed.

(** Reading one escaped character gives the character back. *)
Lemma scanstring_escape_char c tail fuel :
  scalar c ->
  scanstring (S fuel) (escape_char c ++ tail) = prepend c (scanstring fuel tail).
Proof.
  intros Hc. unfold escape_char.
  destruct (N.eqb_spec c dquote) as [->|Hq]; [reflexivity|].
  destruct (N.eqb_spec c backslash) as [->|Hb]; [reflexivity|].
  destruct (N.eqb_spec c 10) as [->|H10]; [reflexivity|].
  destruct (N.eqb_spec c 13) as [->|H13]; [reflexivity|].
  destruct (N.eqb_spec c 9) as [->|H9]; [reflexivity|].
  destruct (N.eqb_spec c 12) as [->|H12]; [reflexivity|].
  destruct (N.eqb_spec c 8) as [->|H8]; [reflexivity|].
  destruct ((32 <=? c) && (c <=? 126)) eqn:Eprint.
  - apply andb_true_iff in Eprint. destruct Eprint as [Hlo Hhi].
    apply N.leb_le in Hlo. simpl.
    apply N.eqb_neq in Hq, Hb. rewrite Hq, Hb.
    destruct (N.ltb_spec c 32); [lia|reflexivity].
  - destruct (N.ltb_spec c 0x10000) as [Hsmall|Hbig].
    + change (scanstring (S fuel) ((backslash :: lit "u" ++ hex4 c) ++ tail))
        with (match decode_hex4 (hex4 c ++ tail) with
              | Some (uni, s3) =>
                  match join_surrogates uni s3 with
                  | Some (ch, s4) => prepend ch (scanstring fuel s4)
                  | None => None
                  end
              | None => None
              end).
      rewrite decode_hex4_hex4 by assumption.
      unfold join_surrogates. now rewrite scalar_not_high_surrogate.
    + destruct (surrogate_pair c) as (Hs1 & Hs2 & Hhigh & Hlow & Hjoin);
        [destruct Hc; lia|].
      cbv zeta.
      set (s1 := N.lor 0xD800 (N.land (N.shiftr (c - 0x10000) 10) 0x3FF)) in *.
      set (s2 := N.lor 0xDC00 (N.land (c - 0x10000) 0x3FF)) in *.
      change (scanstring (S fuel)
                ((backslash :: lit "u" ++ hex4 s1 ++ backslash :: lit "u" ++ hex4 s2)
                 ++ tail))
        with (match decode_hex4 (hex4 s1 ++ backslash :: 117 :: hex4 s2 ++ tail) with
              | Some (uni, s3) =>
                  match join_surrogates uni s3 with
                  | Some (ch, s4) => prepend ch (scanstring fuel s4)
                  | None => None
                  end
              | None => None
              end).
      rewrite decode_hex4_hex4 by assumption.
      unfold join_surrogates. rewrite Hhigh.
      change ((backslash =? backslash) && (117 =? 117)) with true. cbv iota.
      rewrite decode_hex4_hex4 by assumption.
      now rewrite Hlow, Hjoin.
Qed.

Lemma escape_char_length c : (1 <= length (escape_char c))%nat.
Proof.
  unfold escape_char.
  repeat match goal with
         | |- context [if ?b then _ else _] => destruct b
         end; simpl; lia.
Qed.

Lemma scanstring_escaped s : forall rest fuel,
  Forall scalar s ->
  (length (flat_map escape_char s) < fuel)%nat ->
  scanstring fuel (flat_map escape_char s ++ dquote :: rest) = Some (s, rest).
Proof.
  induction s as [|c s IH]; intros rest fuel Hs Hfuel.
  - destruct fuel; [simpl in Hfuel; lia|]. reflexivity.
  - inversion Hs as [|? ? Hc Hs']; subst.
    destruct fuel; [simpl in Hfuel; lia|].
    simpl flat_map. rewrite <- app_assoc.
    rewrite scanstring_escape_char by assumption.
    rewrite IH; [reflexivity|assumption|].
    simpl in Hfuel. rewrite length_app in Hfuel.
    pose proof (escape_char_length c). lia.
Qed.

(** A string written by the encoder is read back, whatever follows it. *)
Lemma parse_string_encoded s rest :
  Forall scalar s -> parse_string (encode_string s ++ rest) = Some (s, rest).
Proof.
  intros Hs. unfold encode_string, parse_string. simpl.
  rewrite <- app_assoc. simpl. apply scanstring_escaped; [assumption|].
  rewrite length_app. simpl. lia.
Qed.

Lemma skip_ws_spaces n s : skip_ws (repeat 32 n ++ s) = skip_ws s.
Proof. induction n as [|n IH]; [reflexivity|exact IH]. Qed.

Lemma skip_ws_indent level s : skip_ws (newline_indent level ++ s) = skip_ws s.
Proof. unfold newline_indent. simpl. apply skip_ws_spaces. Qed.

Lemma skip_ws_string s rest :
  skip_ws (encode_string s ++ rest) = encode_string s ++ rest.
Proof. reflexivity. Qed.

Lemma skip_ws_value level v rest :
  skip_ws (encode_value level v ++ rest) = encode_value level v ++ rest.
Proof. destruct v as [k|[|x ks]]; reflexivity. Qed.

Lemma join_items_cons level x y items :
  join_items level (x :: y :: items)
  = x ++ lit "," ++ newline_indent level ++ join_items level (y :: items).
Proof. reflexivity. Qed.

Lemma skip_ws_strings level l rest :
  l <> [] ->
  skip_ws (join_items level (map encode_string l) ++ rest)
  = join_items level (map encode_string l) ++ rest.
Proof. destruct l as [|x [|y l]]; [congruence|reflexivity|reflexivity]. Qed.

Lemma skip_ws_members level (d : dict key) rest :
  d <> [] ->
  skip_ws (join_items level (map encode_item d) ++ rest)
  = join_items level (map encode_item d) ++ rest.
Proof. destruct d as [|x [|y l]]; [congruence|reflexivity|reflexivity]. Qed.

(** The items of an array written by the encoder are read back. *)
Lemma parse_items_encoded level level' l : forall fuel rest,
  l <> [] -> Forall (Forall scalar) l -> (length l <= fuel)%nat ->
  parse_items fuel (join_items level (map encode_string l)
                    ++ newline_indent level' ++ 93 :: rest)
  = Some (l, rest).
Proof.
  induction l as [|x l IH]; intros fuel rest Hne Hl Hfuel; [congruence|].
  inversion Hl as [|? ? Hx Hl']; subst.
  destruct fuel; [simpl in Hfuel; lia|].
  destruct l as [|y l].
  - cbn [parse_items join_items map].
    rewrite parse_string_encoded by assumption.
    rewrite skip_ws_indent. reflexivity.
  - change (map encode_string (x :: y :: l))
      with (encode_string x :: encode_string y :: map encode_string l).
    rewrite join_items_cons.
    change (encode_string y :: map encode_string l)
      with (map encode_string (y :: l)).
    cbn [parse_items]. rewrite <- !app_assoc.
    rewrite parse_string_encoded by assumption.
    change (skip_ws (lit "," ++ newline_indent level
                     ++ join_items level (map encode_string (y :: l))
                     ++ newline_indent level' ++ 93 :: rest))
      with (44 :: newline_indent level
               ++ join_items level (map encode_string (y :: l))
               ++ newline_indent level' ++ 93 :: rest).
    cbv iota. change (44 =? 93) with false. change (44 =? 44) with true.
    cbv iota. rewrite skip_ws_indent, skip_ws_strings by discriminate.
    rewrite IH; [reflexivity|discriminate|assumption|simpl in *; lia].
Qed.

Lemma join_items_length level items :
  Forall (fun x => (1 <= length x)%nat) items ->
  (length items <= length (join_items level items))%nat.
Proof.
  induction 1 as [|x items Hx _ IH]; [simpl; lia|].
  destruct items as [|y items]; [simpl; lia|].
  rewrite join_items_cons, !length_app. simpl in *. lia.
Qed.

(** A value written by the encoder is read back. *)
Lemma parse_value_encoded v rest :
  scalar_key v -> parse_value (encode_value 1 v ++ rest) = Some (v, rest).
Proof.
  destruct v as [k|[|x ks]]; intros Hv.
  - simpl in Hv. unfold encode_value, encode_string, parse_value. simpl.
    rewrite <- app_assoc. simpl.
    rewrite scanstring_escaped; [reflexivity|assumption|].
    rewrite length_app. simpl. lia.
  - reflexivity.
  - simpl in Hv.
    set (l := x :: ks) in *.
    assert (Hne : l <> []) by discriminate.
    unfold encode_value, encode_list. fold l.
    change (match l with
            | [] => lit "[]"
            | _ :: _ =>
                lit "[" ++ newline_indent 2
                ++ join_items 2 (map encode_string l)
                ++ newline_indent 1 ++ lit "]"
            end)
      with (91 :: newline_indent 2
               ++ join_items 2 (map encode_string l)
               ++ newline_indent 1 ++ lit "]").
    unfold parse_value.
    change ((91 :: newline_indent 2 ++ join_items 2 (map encode_string l)
                ++ newline_indent 1 ++ lit "]") ++ rest)
      with (91 :: (newline_indent 2 ++ join_items 2 (map encode_string l)
                   ++ newline_indent 1 ++ lit "]") ++ rest).
    change (91 =? dquote) with false. change (91 =? 91) with true. cbv iota.
    rewrite <- !app_assoc.
    rewrite skip_ws_indent, skip_ws_strings by assumption.
    assert (Hhead : exists t,
               join_items 2 (map encode_string l)
               ++ newline_indent 1 ++ lit "]" ++ rest = dquote :: t).
    { unfold l. destruct ks; simpl; eauto. }
    destruct Hhead as (t & Hhead). clearbody l.
    rewrite Hhead. change (dquote =? 93) with false. cbv iota.
    rewrite <- Hhead.
    change (lit "]" ++ rest) with (93 :: rest).
    rewrite parse_items_encoded; [reflexivity|assumption|assumption|].
    rewrite !length_app.
    assert (Hlen : (length l <= length (join_items 2 (map encode_string l)))%nat).
    { rewrite <- (length_map encode_string l) at 1. apply join_items_length.
      apply Forall_forall. intros s Hs. apply in_map_iff in Hs.
      destruct Hs as (k & <- & _). simpl. lia. }
    eapply Nat.le_trans; [exact Hlen|]. lia.
Qed.

(** The members of an object written by the encoder are read back. *)
Lemma parse_members_encoded (d : dict key) : forall fuel rest,
  d <> [] ->
  Forall (fun kv => Forall scalar (fst kv) /\ scalar_key (snd kv)) d ->
  (length d <= fuel)%nat ->
  parse_members fuel (join_items 1 (map encode_item d)
                      ++ newline_indent 0 ++ 125 :: rest)
  = Some (d, rest).
Proof.
  induction d as [|[k v] d IH]; intros fuel rest Hne Hd Hfuel; [congruence|].
  inversion Hd as [|? ? [Hk Hv] Hd']; subst. simpl in Hk, Hv.
  destruct fuel; [simpl in Hfuel; lia|].
  assert (Hmember : forall tail,
             parse_string (encode_item (k, v) ++ tail)
             = Some (k, lit ": " ++ encode_value 1 v ++ tail)).
  { intros tail. unfold encode_item. simpl fst. simpl snd.
    rewrite <- !app_assoc. now apply parse_string_encoded. }
  destruct d as [|kv' d].
  - cbn [parse_members join_items map]. rewrite Hmember.
    change (skip_ws (lit ": " ++ encode_value 1 v ++ newline_indent 0 ++ 125 :: rest))
      with (58 :: 32 :: encode_value 1 v ++ newline_indent 0 ++ 125 :: rest).
    cbv iota. change (58 =? 58) with true. cbv iota.
    change (skip_ws (32 :: encode_value 1 v ++ newline_indent 0 ++ 125 :: rest))
      with (skip_ws (encode_value 1 v ++ newline_indent 0 ++ 125 :: rest)).
    rewrite skip_ws_value, parse_value_encoded by assumption.
    rewrite skip_ws_indent. reflexivity.
  - change (map encode_item ((k, v) :: kv' :: d))
      with (encode_item (k, v) :: encode_item kv' :: map encode_item d).
    rewrite join_items_cons.
    change (encode_item kv' :: map encode_item d)
      with (map encode_item (kv' :: d)).
    cbn [parse_members]. rewrite <- !app_assoc. rewrite Hmember.
    set (tail := lit "," ++ newline_indent 1
                 ++ join_items 1 (map encode_item (kv' :: d))
                 ++ newline_indent 0 ++ 125 :: rest).
    change (skip_ws (lit ": " ++ encode_value 1 v ++ tail))
      with (58 :: 32 :: encode_value 1 v ++ tail).
    cbv iota. change (58 =? 58) with true. cbv iota.
    change (skip_ws (32 :: encode_value 1 v ++ tail))
      with (skip_ws (encode_value 1 v ++ tail)).
    rewrite skip_ws_value, parse_value_encoded by assumption.
    unfold tail.
    change (skip_ws (lit "," ++ newline_indent 1
                     ++ join_items 1 (map encode_item (kv' :: d))
                     ++ newline_indent 0 ++ 125 :: rest))
      with (44 :: newline_indent 1
               ++ join_items 1 (map encode_item (kv' :: d))
               ++ newline_indent 0 ++ 125 :: rest).
    cbv iota. change (44 =? 125) with false. change (44 =? 44) with true.
    cbv iota. rewrite skip_ws_indent, skip_ws_members by discriminate.
    rewrite IH; [reflexivity|discriminate|assumption|simpl in *; lia].
Qed.

Lemma dict_set_fresh {V} (d : dict V) k v :
  ~ In k (keys d) -> dict_set d k v = d ++ [(k, v)].
Proof.
  induction d as [|[k' v'] d IH]; simpl; [reflexivity|].
  intros Hin. destruct (str_eqb k' k) eqn:E.
  - apply str_eqb_eq in E. tauto.
  - f_equal. apply IH. tauto.
Qed.

(** Assigning the entries of a dictionary with distinct keys to a
    dictionary that has none of them appends them in order. *)
Lemma dict_update_fresh {V} (e : dict V) : forall d,
  NoDup (keys (d ++ e)) -> dict_update d e = d ++ e.
Proof.
  induction e as [|[k v] e IH]; intros d Hnd.
  - now rewrite app_nil_r.
  - rewrite dict_update_cons. simpl fst. simpl snd.
    rewrite dict_set_fresh.
    + rewrite IH; rewrite <- app_assoc; [reflexivity|exact Hnd].
    + unfold keys in Hnd. rewrite map_app in Hnd. simpl in Hnd.
      apply NoDup_remove_2 in Hnd. intros Hin. apply Hnd.
      apply in_or_app. now left.
Qed.

(** A well-formed mapping written by the encoder is read back as it was,
    entry by entry and in the same order. *)
Lemma json_loads_dumps (d : dict key) :
  well_formed d -> json_loads (json_dumps d) = Some d.
Proof.
  intros [Hnd Hd]. destruct d as [|kv d]; [reflexivity|].
  set (e := kv :: d) in *.
  assert (Hne : e <> []) by discriminate.
  unfold json_dumps. fold e.
  change (match e with
          | [] => lit "{}"
          | _ :: _ =>
              lit "{" ++ newline_indent 1 ++ join_items 1 (map encode_item e)
              ++ newline_indent 0 ++ lit "}"
          end)
    with (123 :: newline_indent 1 ++ join_items 1 (map encode_item e)
              ++ newline_indent 0 ++ [125]).
  unfold json_loads.
  change (skip_ws (123 :: newline_indent 1 ++ join_items 1 (map encode_item e)
                       ++ newline_indent 0 ++ [125]))
    with (123 :: newline_indent 1 ++ join_items 1 (map encode_item e)
              ++ newline_indent 0 ++ [125]).
  cbv iota. change (123 =? 123) with true. cbv iota.
  rewrite skip_ws_indent, skip_ws_members by assumption.
  assert (Hhead : exists t,
             join_items 1 (map encode_item e) ++ newline_indent 0 ++ [125]
             = dquote :: t).
  { unfold e. destruct d; simpl; eauto. }
  destruct Hhead as (t & Hhead). clearbody e.
  rewrite Hhead. change (dquote =? 125) with false. cbv iota.
  rewrite <- Hhead.
  rewrite parse_members_encoded; [|assumption|assumption|].
  - simpl. f_equal. apply (dict_update_fresh e []). exact Hnd.
  - rewrite !length_app.
    assert (Hlen : (length e <= length (join_items 1 (map encode_item e)))%nat).
    { rewrite <- (length_map encode_item e) at 1. apply join_items_length.
      apply Forall_forall. intros s Hs. apply in_map_iff in Hs.
      destruct Hs as (x & <- & _). unfold encode_item, encode_string.
      simpl. lia. }
    eapply Nat.le_trans; [exact Hlen|]. lia.
Qed.

Lemma scalarb_spec c : scalarb c = true -> scalar c.
Proof.
  unfold scalarb, scalar. rewrite andb_true_iff, negb_true_iff, andb_false_iff.
  rewrite N.ltb_lt, !N.leb_gt. lia.
Qed.

Lemma forallb_scalar l : forallb scalarb l = true -> Forall scalar l.
Proof.
  intros H. apply Forall_forall. intros c Hc. apply scalarb_spec.
  rewrite forallb_forall in H. now apply H.
Qed.

Lemma scalar_keyb_spec v : scalar_keyb v = true -> scalar_key v.
Proof.
  destruct v as [k|ks]; simpl; [apply forallb_scalar|].
  intros H. apply Forall_forall. intros k Hk. apply forallb_scalar.
  rewrite forallb_forall in H. now apply H.
Qed.

Lemma entries_scalar (d : dict key) :
  forallb (fun kv => forallb scalarb (fst kv) && scalar_keyb (snd kv)) d = true ->
  Forall (fun kv => Forall scalar (fst kv) /\ scalar_key (snd kv)) d.
Proof.
  intros H. apply Forall_forall. intros kv Hkv.
  rewrite forallb_forall in H. specialize (H kv Hkv).
  apply andb_true_iff in H. destruct H as [Hk Hv].
  split; [now apply forallb_scalar|now apply scalar_keyb_spec].
Qed.

(** ** The mappings of the script are well formed *)

Section Pieces.
Variable P : char -> Prop.

Lemma Forall_suffix (x s : str) : Forall P (x ++ s) -> Forall P s.
Proof. intros H. apply Forall_app in H. tauto. Qed.

Lemma assoc_Forall l g s :
  Forall (fun gs => Forall P (snd gs)) l -> assoc l g = Some s -> Forall P s.
Proof.
  induction 1 as [|[g' s'] l Hs _ IH]; simpl; [discriminate|].
  destruct (Nat.eqb g' g); [|assumption]. now intros [= <-].
Qed.

Lemma close_group_marks g s mk : marks_of P mk -> marks_of P (close_group g s mk).
Proof.
  intros [Hs Hc]. unfold close_group.
  destruct (assoc (started mk) g) as [s0|] eqn:E; [|now split].
  split; simpl; [assumption|]. constructor; [|assumption]. simpl.
  apply (assoc_Forall _ _ _ Hs) in E.
  rewrite <- (firstn_skipn (length s0 - length s) s0) in E.
  apply Forall_app in E. tauto.
Qed.

(** What a match leaves and what it captures are pieces of the text. *)
Lemma run_pieces p : forall mk s r mk',
  Forall P s -> marks_of P mk -> run p mk s = Some (r, mk') ->
  Forall P r /\ marks_of P mk'.
Proof.
  induction p as [|[c|[] lo cls|g|g|] p IH]; intros mk s r mk' Hs Hmk; simpl.
  - intros [= <- <-]. now split.
  - destruct s as [|x s]; [discriminate|].
    destruct (x =? c); [|discriminate].
    apply IH; [now inversion Hs|assumption].
  - intros H. apply rep_greedy_sound in H.
    destruct H as (x & s' & -> & _ & _ & Hk).
    eapply IH; [eapply Forall_suffix; eassumption|eassumption|eassumption].
  - intros H. apply rep_lazy_sound in H.
    destruct H as (x & s' & -> & _ & _ & Hk).
    eapply IH; [eapply Forall_suffix; eassumption|eassumption|eassumption].
  - apply IH; [assumption|]. destruct Hmk as [H1 H2].
    split; simpl; [constructor|]; assumption.
  - apply IH; [assumption|]. now apply close_group_marks.
  - destruct s as [|c [|c' s]]; [now apply IH| |discriminate].
    destruct (c =? newline); [now apply IH|discriminate].
Qed.

Lemma finditer_pieces p s : forall skip,
  Forall P s -> Forall (marks_of P) (finditer_from p skip s).
Proof.
  induction s as [|c s IH]; intros skip Hs; simpl.
  - destruct skip; [|constructor].
    destruct (re_match p []) as [[r mk]|] eqn:E; constructor; [|constructor].
    eapply run_pieces in E; [tauto|constructor|].
    split; constructor.
  - inversion Hs; subst. destruct skip; [|now apply IH].
    destruct (re_match p (c :: s)) as [[r mk]|] eqn:E; [|now apply IH].
    constructor; [|now apply IH].
    eapply run_pieces in E; [tauto|assumption|]. split; constructor.
Qed.

Lemma group_pieces mk g : marks_of P mk -> Forall P (group mk g).
Proof.
  intros [_ Hc]. unfold group.
  destruct (assoc (captured mk) g) eqn:E; [|constructor].
  eapply assoc_Forall; eassumption.
Qed.

Lemma lstrip_pieces s : Forall P s -> Forall P (lstrip s).
Proof.
  induction 1 as [|c s Hc Hs IH]; simpl; [constructor|].
  destruct (isspace c); [assumption|now constructor].
Qed.

Lemma strip_pieces s : Forall P s -> Forall P (strip s).
Proof.
  intros Hs. unfold strip, rstrip.
  apply Forall_rev, lstrip_pieces, Forall_rev, lstrip_pieces, Hs.
Qed.

Lemma split_from_pieces s : forall cur,
  Forall P cur -> Forall P s -> Forall (Forall P) (split_from cur s).
Proof.
  induction s as [|c s IH]; intros cur Hcur Hs; simpl.
  - destruct cur; constructor; [now apply Forall_rev|constructor].
  - inversion Hs; subst. destruct (isspace c).
    + destruct cur; [now apply IH|].
      constructor; [now apply Forall_rev|now apply IH].
    + apply IH; [now constructor|assumption].
Qed.

Lemma key_representation_pieces key_value :
  Forall P key_value ->
  match key_representation key_value with
  | Single k => Forall P k
  | Multiple ks => Forall (Forall P) ks
  end.
Proof.
  intros H. unfold key_representation.
  assert (Hs : Forall (Forall P) (split key_value))
    by (apply split_from_pieces; [constructor|assumption]).
  destruct (split key_value) as [|k [|k' ks]]; simpl; auto.
  now inversion Hs.
Qed.

Lemma dict_set_entries (d : dict key) k v :
  Forall (entry_of P) d -> entry_of P (k, v) -> Forall (entry_of P) (dict_set d k v).
Proof.
  intros Hd Hkv. induction Hd as [|[k' v'] d Hx Hd IH]; simpl.
  - constructor; [assumption|constructor].
  - destruct (str_eqb k' k) eqn:E.
    + apply str_eqb_eq in E. subst. now constructor.
    + now constructor.
Qed.

Lemma dict_update_entries (e : dict key) : forall d,
  Forall (entry_of P) d -> Forall (entry_of P) e -> Forall (entry_of P) (dict_update d e).
Proof.
  induction e as [|[k v] e IH]; intros d Hd He; [assumption|].
  inversion He; subst. rewrite dict_update_cons. apply IH; [|assumption].
  now apply dict_set_entries.
Qed.

Lemma extract_keys_from_text_entries content :
  Forall P content -> Forall (entry_of P) (extract_keys_from_text content).
Proof.
  intros Hc. rewrite extract_keys_from_text_eq.
  apply dict_update_entries; [constructor|].
  unfold declarations. apply Forall_map, Forall_forall. intros m Hm.
  assert (Hmk : marks_of P m).
  { pose proof (finditer_pieces list_pattern content 0%nat Hc) as H.
    rewrite Forall_forall in H. now apply H. }
  split; simpl.
  - now apply group_pieces.
  - apply key_representation_pieces, strip_pieces. now apply group_pieces.
Qed.
End Pieces.

Section Produced.
Variable w : world.

(** The text of every file is made of scalar values, as decoding gives
    it. *)
Hypothesis decoded :
  forall path content, file_text w path = Some content -> Forall scalar content.

Lemma member_tables_entries yang_file :
  Forall (entry_of scalar) (member_tables w yang_file).
Proof.
  unfold member_tables. destruct (file_text w yang_file) eqn:E; [|constructor].
  apply extract_keys_from_text_entries. eapply decoded; eassumption.
Qed.

Lemma merged_well_formed yang_files :
  well_formed (fold_left (fun all yang_file =>
                            dict_update all (member_tables w yang_file))
                         yang_files []).
Proof.
  split; [apply merged_NoDup; constructor|].
  assert (H : forall acc,
             Forall (entry_of scalar) acc ->
             Forall (entry_of scalar)
                    (fold_left (fun all yang_file =>
                                  dict_update all (member_tables w yang_file))
                               yang_files acc)).
  { induction yang_files as [|f fs IH]; intros acc Hacc; [assumption|].
    simpl. apply IH. apply dict_update_entries; [assumption|].
    apply member_tables_entries. }
  specialize (H [] ltac:(constructor)).
  eapply Forall_impl; [|exact H].
  intros [k [v|vs]] [Hk Hv]; split; assumption.
Qed.

(** Whatever mapping a run returns is well formed. *)
Lemma run_result_well_formed zip_path st d st' :
  extract_primary_keys_from_zip w zip_path st = (Ok d, st') -> well_formed d.
Proof.
  intros Hrun. unfold extract_primary_keys_from_zip in Hrun.
  destruct (extract_yang_files w zip_path (tempdir w) st)
    as [[yang_files|e] st1] eqn:Hsel.
  - erewrite bind_ok in Hrun by exact Hsel.
    destruct (match yang_files with
              | [] => logger WARNING NoYangFilesFound;;; examine_sample w zip_path
              | _ :: _ => ret tt
              end st1) as [[[]|e] st2] eqn:Hpre.
    + erewrite bind_ok in Hrun by exact Hpre.
      destruct (parse_loop_ok w yang_files [] st2) as (st3 & Hloop & _).
      pose proof (eq_trans (eq_sym Hloop) Hrun) as Heq.
      injection Heq as <- _. apply merged_well_formed.
    + erewrite bind_raise in Hrun by exact Hpre. discriminate.
  - erewrite bind_raise in Hrun by exact Hsel. discriminate.
Qed.
End Produced.

(** C8: serialising a mapping with [json.dumps(..., indent=2)] and reading
    the document back gives an equal mapping: strings equal as strings,
    lists of keys equal as sequences.  This holds for every mapping with
    distinct entity names and strings of Unicode scalar values, and so for
    the mapping of every run, whose strings are pieces of decoded text. *)
Theorem json_round_trip :
  (forall d : dict key, well_formed d -> json_loads (json_dumps d) = Some d)
  /\ (forall (w : world) zip_path st d st',
        (forall path content,
            file_text w path = Some content -> Forall scalar content) ->
        extract_primary_keys_from_zip w zip_path st = (Ok d, st') ->
        json_loads (json_dumps d) = Some d).
Proof.
  split.
  - exact json_loads_dumps.
  - intros w zip_path st d st' Hdecoded Hrun. apply json_loads_dumps.
    eapply run_result_well_formed; eassumption.
Qed.

(** ** Further properties of the selector and of the paths it returns *)

Lemma endswith_slash_false q t :
  t <> [] -> last t 0 <> slash -> endswith (q ++ t) [slash] = false.
Proof.
  intros Hne Hlast.
  destruct (endswith (q ++ t) [slash]) eqn:E; [|reflexivity].
  apply endswith_iff in E. destruct E as (x & E). exfalso. apply Hlast.
  destruct (exists_last Hne) as (t' & c & ->).
  rewrite app_assoc in E. apply app_inj_tail in E. destruct E as [_ ->].
  now rewrite last_last.
Qed.

(** The selector accepts exactly the paths made of a stem without newline
    whose base name has a hyphen, then [.yang], then nothing or one final
    newline. *)
Theorem selector_accepts_exactly p :
  is_yang_member p = true <->
  exists stem tail,
    p = stem ++ lit ".yang" ++ tail
    /\ (tail = [] \/ tail = [newline])
    /\ ~ In newline stem /\ In hyphen (basename stem).
Proof.
  rewrite is_yang_member_spec, yang_pattern_match.
  assert (Hext : forall tail, tail = [] \/ tail = [newline] ->
                              ~ In slash (lit ".yang" ++ tail)
                              /\ ~ In hyphen (lit ".yang" ++ tail)).
  { intros tail [->| ->]; vm_compute; intuition discriminate. }
  split.
  - intros ((a & b & tail & Hp & Ha & Hb & Htail) & _ & Hhyphen).
    exists (a ++ hyphen :: b), tail.
    assert (Hp' : p = (a ++ hyphen :: b) ++ lit ".yang" ++ tail).
    { rewrite Hp, <- app_assoc. reflexivity. }
    split; [exact Hp'|]. split; [exact Htail|]. split.
    + intros Hin. apply in_app_or in Hin.
      rewrite Forall_forall in Ha, Hb.
      destruct Hin as [Hin|[Hin|Hin]].
      * apply Ha in Hin. now apply is_not_iff in Hin.
      * discriminate.
      * apply Hb in Hin. now apply is_not_iff in Hin.
    + destruct (Hext tail Htail) as [Hs Hh].
      rewrite Hp', basename_app in Hhyphen by assumption.
      apply contains_iff in Hhyphen. apply in_app_or in Hhyphen. tauto.
  - intros (stem & tail & -> & Htail & Hnl & Hhyphen).
    destruct (Hext tail Htail) as [Hs Hh].
    destruct (basename_suffix stem) as (d & Hd).
    assert (Hin : In hyphen stem).
    { rewrite Hd. apply in_or_app. now right. }
    apply in_split in Hin. destruct Hin as (a & b & Hab).
    split; [|split].
    + exists a, b, tail. rewrite Hab, <- app_assoc. simpl.
      split; [reflexivity|].
      split; [|split; [|exact Htail]]; apply Forall_not_newline; intros H;
        apply Hnl; rewrite Hab; apply in_or_app; [now left|].
      right. now right.
    + apply endswith_slash_false.
      * destruct Htail as [->| ->]; discriminate.
      * destruct Htail as [->| ->]; vm_compute; discriminate.
    + rewrite basename_app by assumption. apply contains_iff.
      apply in_or_app. now left.
Qed.

Lemma basename_after_slash x y : basename (x ++ slash :: y) = basename y.
Proof.
  induction x as [|c x IH].
  - reflexivity.
  - change (basename ((c :: x) ++ slash :: y))
      with (if contains slash ((c :: x) ++ slash :: y)
            then basename (x ++ slash :: y) else (c :: x) ++ slash :: y).
    assert (H : contains slash ((c :: x) ++ slash :: y) = true).
    { apply contains_iff. apply in_or_app. right. now left. }
    now rewrite H.
Qed.

Lemma basename_path_join a b : basename (path_join a b) = basename b.
Proof.
  assert (Hdir : forall t, endswith a [slash] || (length a =? 0)%nat = true ->
                           basename (a ++ t) = basename t).
  { intros t H. apply orb_true_iff in H. destruct H as [H|H].
    - apply endswith_iff in H. destruct H as (q & ->).
      rewrite <- app_assoc. apply basename_after_slash.
    - apply Nat.eqb_eq in H. now destruct a. }
  unfold path_join. destruct b as [|c b].
  - destruct (endswith a [slash] || (length a =? 0)%nat) eqn:E.
    + rewrite <- (app_nil_r a). now apply Hdir.
    + apply (basename_after_slash a []).
  - destruct (N.eqb_spec c slash) as [->|Hc]; [reflexivity|].
    destruct (endswith a [slash] || (length a =? 0)%nat) eqn:E.
    + now apply Hdir.
    + apply basename_after_slash.
Qed.

(** The [strip()] of line 63 changes nothing: the key representation of a
    quoted string is that of the string with its outer whitespace kept. *)
Theorem strip_before_split_is_redundant key_value :
  key_representation (strip key_value) = key_representation key_value.
Proof. unfold key_representation. now rewrite split_strip. Qed.

(** ** What the extractor reports *)

Lemma run_Lit c p mk s res :
  run (Lit c :: p) mk s = Some res ->
  exists s', s = c :: s' /\ run p mk s' = Some res.
Proof.
  simpl. destruct s as [|x s]; [discriminate|].
  destruct (N.eqb_spec x c); [|discriminate]. subst. eauto.
Qed.

Lemma run_Rep g lo cls p mk s res :
  run (Rep g lo cls :: p) mk s = Some res ->
  exists x s', s = x ++ s' /\ Forall (fun c => cls c = true) x
               /\ (lo <= length x)%nat /\ run p mk s' = Some res.
Proof.
  simpl. destruct g; intros H;
    [apply rep_greedy_sound in H|apply rep_lazy_sound in H];
    destruct H as (x & s' & -> & Hx & Hlo & Hk); exists x, s'; auto.
Qed.

Lemma nonempty_length (x : str) : (1 <= length x)%nat -> x <> [].
Proof. destruct x; simpl; [lia|discriminate]. Qed.

(** A match of the declaration pattern covers a text of the declaration
    shape; group 1 is the name and group 2 the quoted string. *)
Lemma list_pattern_match_shape s r m :
  re_match list_pattern s = Some (r, m) ->
  exists ws1 ws2 body ws3,
    s = declaration_text ws1 (group m 1) ws2 body ws3 (group m 2) ++ r
    /\ ws1 <> [] /\ Forall (fun c => isspace c = true) ws1
    /\ group m 1 <> [] /\ Forall (fun c => isword c = true) (group m 1)
    /\ Forall (fun c => isspace c = true) ws2
    /\ Forall (fun c => c <> lbrace) body
    /\ ws3 <> [] /\ Forall (fun c => isspace c = true) ws3
    /\ group m 2 <> [] /\ Forall (fun c => c <> dquote) (group m 2).
Proof.
  unfold re_match. intros H.
  change list_pattern
    with [Lit 108; Lit 105; Lit 115; Lit 116; Rep true 1 isspace; Open 1;
          Rep true 1 isword; Close 1; Rep true 0 isspace; Lit lbrace;
          Rep false 0 (is_not lbrace); Lit 107; Lit 101; Lit 121;
          Rep true 1 isspace; Lit dquote; Open 2; Rep true 1 (is_not dquote);
          Close 2; Lit dquote] in H.
  do 4 (apply run_Lit in H; destruct H as (? & -> & H)).
  apply run_Rep in H. destruct H as (ws1 & s1 & -> & Hws1 & Hl1 & H).
  change (run (Rep true 1 isword :: Close 1 :: Rep true 0 isspace :: Lit lbrace
               :: Rep false 0 (is_not lbrace) :: Lit 107 :: Lit 101 :: Lit 121
               :: Rep true 1 isspace :: Lit dquote :: Open 2
               :: Rep true 1 (is_not dquote) :: Close 2 :: [Lit dquote])
              (open_group 1 s1 no_marks) s1 = Some (r, m)) in H.
  apply run_Rep in H. destruct H as (name & s2 & -> & Hname & Hl2 & H).
  change (run (Rep true 0 isspace :: Lit lbrace
               :: Rep false 0 (is_not lbrace) :: Lit 107 :: Lit 101 :: Lit 121
               :: Rep true 1 isspace :: Lit dquote :: Open 2
               :: Rep true 1 (is_not dquote) :: Close 2 :: [Lit dquote])
              (close_group 1 s2 (open_group 1 (name ++ s2) no_marks)) s2
          = Some (r, m)) in H.
  set (mk2 := close_group 1 s2 (open_group 1 (name ++ s2) no_marks)) in H.
  apply run_Rep in H. destruct H as (ws2 & s3 & -> & Hws2 & _ & H).
  apply run_Lit in H. destruct H as (s4 & -> & H).
  apply run_Rep in H. destruct H as (body & s5 & -> & Hbody & _ & H).
  do 3 (apply run_Lit in H; destruct H as (? & -> & H)).
  apply run_Rep in H. destruct H as (ws3 & s6 & -> & Hws3 & Hl3 & H).
  apply run_Lit in H. destruct H as (s7 & -> & H).
  change (run (Rep true 1 (is_not dquote) :: Close 2 :: [Lit dquote])
              (open_group 2 s7 mk2) s7 = Some (r, m)) in H.
  apply run_Rep in H. destruct H as (raw & s8 & -> & Hraw & Hl4 & H).
  change (run [Lit dquote] (close_group 2 s8 (open_group 2 (raw ++ s8) mk2)) s8
          = Some (r, m)) in H.
  apply run_Lit in H. destruct H as (s9 & -> & H).
  simpl in H. injection H as -> <-.
  assert (Hg1 : group (close_group 2 (dquote :: r)
                         (open_group 2 (raw ++ dquote :: r) mk2)) 1 = name).
  { unfold mk2, group, close_group, open_group. simpl. apply firstn_app_exact. }
  assert (Hg2 : group (close_group 2 (dquote :: r)
                         (open_group 2 (raw ++ dquote :: r) mk2)) 2 = raw).
  { unfold mk2, group, close_group, open_group. simpl.
    change (raw ++ dquote :: r) with (raw ++ (dquote :: r)).
    replace (S (length r)) with (length (dquote :: r)) by reflexivity.
    apply firstn_app_exact. }
  rewrite Hg1, Hg2. exists ws1, ws2, body, ws3.
  split; [|repeat split; auto using nonempty_length].
  - unfold declaration_text. repeat (rewrite <- ?app_assoc; simpl). reflexivity.
  - eapply Forall_impl; [|exact Hbody]. intros c Hc. now apply is_not_iff.
  - eapply Forall_impl; [|exact Hraw]. intros c Hc. now apply is_not_iff.
Qed.

(** Every match a search reports is a match at some place of the text. *)
Lemma finditer_from_In p s : forall skip m,
  In m (finditer_from p skip s) ->
  exists pre suffix rest, s = pre ++ suffix /\ re_match p suffix = Some (rest, m).
Proof.
  induction s as [|c s IH]; intros skip m; simpl.
  - destruct skip; [|intros []].
    destruct (re_match p []) as [[rest mk]|] eqn:E; [|intros []].
    intros [<-|[]]. exists [], [], rest. auto.
  - assert (Hrec : forall n, In m (finditer_from p n s) ->
                             exists pre suffix rest,
                               c :: s = pre ++ suffix
                               /\ re_match p suffix = Some (rest, m)).
    { intros n Hin. destruct (IH n m Hin) as (pre & suffix & rest & -> & Hm).
      exists (c :: pre), suffix, rest. auto. }
    destruct skip; [|apply Hrec].
    destruct (re_match p (c :: s)) as [[rest mk]|] eqn:E; [|apply Hrec].
    intros [<-|Hin]; [|eapply Hrec; eassumption].
    exists [], (c :: s), rest. auto.
Qed.

Lemma last_assigned_In {V} k (l : list (str * V)) v :
  last_assigned k l = Some v -> In (k, v) l.
Proof.
  induction l as [|[k' v'] l IH]; simpl; [discriminate|].
  destruct (last_assigned k l) as [v0|].
  - intros [= <-]. right. now apply IH.
  - destruct (str_eqb k' k) eqn:E; [|discriminate].
    apply str_eqb_eq in E. subst. intros [= <-]. now left.
Qed.

(** An entry of the mapping of a text comes from a match of the search. *)
Lemma entry_has_match content name v :
  dict_get (extract_keys_from_text content) name = Some v ->
  exists pre suffix rest m,
    content = pre ++ suffix
    /\ re_match list_pattern suffix = Some (rest, m)
    /\ group m 1 = name /\ v = key_representation (strip (group m 2)).
Proof.
  rewrite extract_keys_from_text_get. intros H.
  apply last_assigned_In in H. unfold declarations in H.
  apply in_map_iff in H. destruct H as (m & Hdecl & Hin).
  injection Hdecl as Hname Hv.
  apply finditer_from_In in Hin. destruct Hin as (pre & suffix & rest & Hs & Hm).
  exists pre, suffix, rest, m. auto.
Qed.

(** The extractor never invents an entity: every entry of its mapping is
    the name and the key representation of a list declaration that stands
    in the text, the name separated from the brace by whitespace only. *)
Theorem entry_comes_from_a_declaration content name v :
  dict_get (extract_keys_from_text content) name = Some v ->
  exists pre ws1 ws2 body ws3 raw rest,
    content = pre ++ declaration_text ws1 name ws2 body ws3 raw ++ rest
    /\ ws1 <> [] /\ Forall (fun c => isspace c = true) ws1
    /\ name <> [] /\ Forall (fun c => isword c = true) name
    /\ Forall (fun c => isspace c = true) ws2
    /\ Forall (fun c => c <> lbrace) body
    /\ ws3 <> [] /\ Forall (fun c => isspace c = true) ws3
    /\ raw <> [] /\ Forall (fun c => c <> dquote) raw
    /\ v = key_representation raw.
Proof.
  intros H. apply entry_has_match in H.
  destruct H as (pre & suffix & rest & m & -> & Hm & <- & ->).
  apply list_pattern_match_shape in Hm.
  destruct Hm as (ws1 & ws2 & body & ws3 & -> & Hshape).
  exists pre, ws1, ws2, body, ws3, (group m 2), rest.
  split; [reflexivity|].
  unfold key_representation. rewrite split_strip. tauto.
Qed.

Lemma key_representation_shape raw :
  Forall (fun c => c <> dquote) raw -> key_shape (key_representation raw).
Proof.
  intros Hraw.
  assert (Hfields : Forall field_name (split raw)).
  { pose proof (Tokens_nonempty _ _ (split_Tokens raw)) as Hne.
    pose proof (split_from_pieces (fun c => c <> dquote) raw [] ltac:(constructor) Hraw)
      as Hq.
    fold (split raw) in Hq.
    rewrite Forall_forall in Hne, Hq. apply Forall_forall. intros k Hk.
    destruct (Hne k Hk) as [H1 H2]. specialize (Hq k Hk).
    repeat split; auto.
    intros Hin. rewrite Forall_forall in Hq. now apply (Hq dquote). }
  unfold key_representation, key_shape.
  destruct (Nat.eqb_spec (length (split raw)) 1) as [E|E].
  - destruct (split raw) as [|k [|k' ks]]; try discriminate.
    simpl. now inversion Hfields.
  - split; assumption.
Qed.

(** What the mapping of a text holds: entity names are non-empty strings of
    word characters; a value is one field name or a list of field names
    whose length is not one, and a field name is non-empty and free of
    whitespace and of double quotes. *)
Theorem entries_have_the_stored_shape content name v :
  dict_get (extract_keys_from_text content) name = Some v ->
  name <> [] /\ Forall (fun c => isword c = true) name /\ key_shape v.
Proof.
  intros H. apply entry_has_match in H.
  destruct H as (pre & suffix & rest & m & -> & Hm & <- & ->).
  apply list_pattern_match_shape in Hm.
  destruct Hm as (ws1 & ws2 & body & ws3 & _ & _ & _ & Hn & Hw & _ & _ & _ & _
                  & _ & Hraw).
  split; [exact Hn|]. split; [exact Hw|].
  apply key_representation_shape.
  apply (strip_pieces (fun c => c <> dquote)). exact Hraw.
Qed.

Lemma finditer_from_nil p s :
  (forall pre suffix, s = pre ++ suffix -> re_match p suffix = None) ->
  forall skip, finditer_from p skip s = [].
Proof.
  intros Hnone skip.
  destruct (finditer_from p skip s) as [|m ms] eqn:E; [reflexivity|].
  assert (Hin : In m (finditer_from p skip s)) by (rewrite E; now left).
  apply finditer_from_In in Hin. destruct Hin as (pre & suffix & rest & Hs & Hm).
  rewrite (Hnone pre suffix Hs) in Hm. discriminate.
Qed.

Lemma declaration_text_has_brace_and_quote ws1 name gap body ws3 raw :
  In lbrace (declaration_text ws1 name gap body ws3 raw)
  /\ In dquote (declaration_text ws1 name gap body ws3 raw).
Proof.
  unfold declaration_text. split.
  - do 4 (apply in_or_app; right). now left.
  - do 4 (apply in_or_app; right). right.
    do 3 (apply in_or_app; right). now left.
Qed.

(** A text without an open brace, or without a double quote, has no list
    declaration with a key: the extractor returns the empty mapping. *)
Theorem text_without_key_clause_gives_nothing content :
  ~ In lbrace content \/ ~ In dquote content ->
  extract_keys_from_text content = [].
Proof.
  intros Hmiss. unfold extract_keys_from_text, finditer.
  rewrite finditer_from_nil; [reflexivity|].
  intros pre suffix -> .
  destruct (re_match list_pattern suffix) as [[rest m]|] eqn:E; [|reflexivity].
  exfalso. apply list_pattern_match_shape in E.
  destruct E as (ws1 & ws2 & body & ws3 & -> & _).
  destruct (declaration_text_has_brace_and_quote
              ws1 (group m 1) ws2 body ws3 (group m 2)) as [Hb Hq].
  destruct Hmiss as [H|H]; apply H; apply in_or_app; right;
    apply in_or_app; left; assumption.
Qed.

(** ** The order of the entries *)

Lemma existsb_str_eqb k l : existsb (str_eqb k) l = true <-> In k l.
Proof.
  rewrite existsb_exists. split.
  - intros (x & Hin & Hx). apply str_eqb_eq in Hx. now subst.
  - intros Hin. exists k. split; [assumption|apply str_eqb_refl].
Qed.

Lemma keys_dict_update {V} (l : dict V) : forall d,
  keys (dict_update d l) = add_new (keys d) (map fst l).
Proof.
  induction l as [|[k v] l IH]; intros d; [reflexivity|].
  rewrite dict_update_cons, IH. simpl.
  destruct (existsb (str_eqb k) (keys d)) eqn:E.
  - apply existsb_str_eqb in E. now rewrite keys_dict_set_in.
  - rewrite keys_dict_set_notin; [reflexivity|].
    intros Hin. apply existsb_str_eqb in Hin. congruence.
Qed.

Lemma add_new_app seen a b : add_new seen (a ++ b) = add_new (add_new seen a) b.
Proof.
  revert seen. induction a as [|k a IH]; intros seen; [reflexivity|].
  simpl. destruct (existsb (str_eqb k) seen); apply IH.
Qed.

Lemma add_new_In seen l k : In k (add_new seen l) <-> In k seen \/ In k l.
Proof.
  revert seen. induction l as [|x l IH]; intros seen; simpl; [tauto|].
  destruct (existsb (str_eqb x) seen) eqn:E; rewrite IH.
  - apply existsb_str_eqb in E. split; [tauto|].
    intros [H|[<-|H]]; auto.
  - rewrite in_app_iff. simpl. tauto.
Qed.

Lemma add_new_first seen acc l :
  add_new seen (add_new acc l) = add_new (add_new seen acc) l.
Proof.
  revert acc. induction l as [|k l IH]; intros acc; [reflexivity|].
  simpl. destruct (existsb (str_eqb k) acc) eqn:E.
  - rewrite IH.
    assert (H : existsb (str_eqb k) (add_new seen acc) = true).
    { apply existsb_str_eqb, add_new_In. right. now apply existsb_str_eqb. }
    now rewrite H.
  - rewrite IH, add_new_app. simpl.
    destruct (existsb (str_eqb k) (add_new seen acc)); reflexivity.
Qed.

Lemma keys_extract_keys_from_text content :
  keys (extract_keys_from_text content)
  = first_occurrences (map fst (declarations content)).
Proof. rewrite extract_keys_from_text_eq. apply keys_dict_update. Qed.

Lemma keys_merged (w : world) yang_files : forall acc,
  keys (fold_left (fun all yang_file =>
                     dict_update all (member_tables w yang_file))
                  yang_files acc)
  = add_new (keys acc) (map fst (occurrences w yang_files)).
Proof.
  induction yang_files as [|f fs IH]; intros acc; [reflexivity|].
  simpl. rewrite IH, keys_dict_update, map_app, add_new_app. f_equal.
  unfold member_tables. destruct (file_text w f) as [content|]; [|reflexivity].
  fold (keys (extract_keys_from_text content)).
  rewrite keys_extract_keys_from_text. unfold first_occurrences.
  rewrite add_new_first. reflexivity.
Qed.

(** ** What a run depends on and what it changes *)

Lemma quiet_ret {A} (a : A) : quiet (ret a).
Proof. intros st. apply follows_refl. Qed.

Lemma quiet_raise {A} e : quiet (@raise A e).
Proof. intros st. apply follows_refl. Qed.

Lemma quiet_logger l msg : quiet (logger l msg).
Proof.
  intros st. destruct (logger_follows l msg st) as (st' & E & Hf).
  now rewrite E.
Qed.

Lemma quiet_bind {A B} (c : M A) (f : A -> M B) :
  quiet c -> (forall a, quiet (f a)) -> quiet (bind c f).
Proof.
  intros Hc Hf st. unfold bind. specialize (Hc st).
  destruct (c st) as [[a|e] st1]; simpl in *; [|exact Hc].
  eapply follows_trans; [exact Hc|apply Hf].
Qed.

Lemma quiet_try_except {A} (c : M A) h :
  quiet c -> (forall e, quiet (h e)) -> quiet (try_except c h).
Proof.
  intros Hc Hh st. unfold try_except. specialize (Hc st).
  destruct (c st) as [[a|e] st1]; simpl in *; [exact Hc|].
  eapply follows_trans; [exact Hc|apply Hh].
Qed.

Lemma quiet_for_each {A B} (l : list A) (body : B -> A -> M B) :
  (forall acc x, quiet (body acc x)) -> forall acc, quiet (for_each l acc body).
Proof.
  intros Hbody. induction l as [|x l IH]; intros acc; simpl.
  - apply quiet_ret.
  - apply quiet_bind; [apply Hbody|intros a; apply IH].
Qed.

Lemma stateless_ret {A} (a : A) : stateless (ret a).
Proof. intros st1 st2. reflexivity. Qed.

Lemma stateless_raise {A} e : stateless (@raise A e).
Proof. intros st1 st2. reflexivity. Qed.

Lemma stateless_logger l msg : stateless (logger l msg).
Proof.
  intros st1 st2. unfold logger.
  destruct (levelno (logger_level st1) <=? levelno l)%nat,
           (levelno (logger_level st2) <=? levelno l)%nat; reflexivity.
Qed.

Lemma stateless_bind {A B} (c : M A) (f : A -> M B) :
  stateless c -> (forall a, stateless (f a)) -> stateless (bind c f).
Proof.
  intros Hc Hf st1 st2. unfold bind. specialize (Hc st1 st2).
  destruct (c st1) as [[a|e] s1], (c st2) as [[a'|e'] s2]; simpl in Hc;
    try discriminate; injection Hc as <-; [apply Hf|reflexivity].
Qed.

Lemma stateless_try_except {A} (c : M A) h :
  stateless c -> (forall e, stateless (h e)) -> stateless (try_except c h).
Proof.
  intros Hc Hh st1 st2. unfold try_except. specialize (Hc st1 st2).
  destruct (c st1) as [[a|e] s1], (c st2) as [[a'|e'] s2]; simpl in Hc;
    try discriminate; injection Hc as <-; [reflexivity|apply Hh].
Qed.

Lemma stateless_for_each {A B} (l : list A) (body : B -> A -> M B) :
  (forall acc x, stateless (body acc x)) ->
  forall acc, stateless (for_each l acc body).
Proof.
  intros Hbody. induction l as [|x l IH]; intros acc; simpl.
  - apply stateless_ret.
  - apply stateless_bind; [apply Hbody|intros a; apply IH].
Qed.

Ltac script_step quiet_or_stateless :=
  repeat first
    [ apply quiet_bind | apply quiet_try_except | apply quiet_for_each
    | apply quiet_logger | apply quiet_ret | apply quiet_raise
    | apply stateless_bind | apply stateless_try_except
    | apply stateless_for_each | apply stateless_logger
    | apply stateless_ret | apply stateless_raise
    | match goal with
      | |- forall _, _ => intro
      | |- quiet_or_stateless _ (match ?x with _ => _ end) => destruct x
      end ].

Section Footprint.
Variable w : world.

Lemma open_archive_quiet zip_path : quiet (open_archive w zip_path).
Proof. unfold open_archive. script_step (@quiet). Qed.

Lemma open_archive_stateless zip_path : stateless (open_archive w zip_path).
Proof. unfold open_archive. script_step (@stateless). Qed.

Lemma extract_yang_files_quiet zip_path temp_dir :
  quiet (extract_yang_files w zip_path temp_dir).
Proof.
  unfold extract_yang_files.
  apply quiet_bind; [apply open_archive_quiet|]. script_step (@quiet).
Qed.

Lemma extract_yang_files_stateless zip_path temp_dir :
  stateless (extract_yang_files w zip_path temp_dir).
Proof.
  unfold extract_yang_files.
  apply stateless_bind; [apply open_archive_stateless|].
  script_step (@stateless).
Qed.

Lemma extract_keys_using_regex_quiet yang_file :
  quiet (extract_keys_using_regex w yang_file).
Proof. unfold extract_keys_using_regex. script_step (@quiet). Qed.

Lemma extract_keys_using_regex_stateless yang_file :
  stateless (extract_keys_using_regex w yang_file).
Proof. unfold extract_keys_using_regex. script_step (@stateless). Qed.

Lemma examine_sample_quiet zip_path : quiet (examine_sample w zip_path).
Proof.
  unfold examine_sample.
  apply quiet_bind; [apply open_archive_quiet|]. script_step (@quiet).
Qed.

Lemma examine_sample_stateless zip_path :
  stateless (examine_sample w zip_path).
Proof.
  unfold examine_sample.
  apply stateless_bind; [apply open_archive_stateless|].
  script_step (@stateless).
Qed.

(** A run only logs: it leaves the logger's level and the output as they
    were, whether it returns or raises. *)
Lemma extract_primary_keys_from_zip_quiet zip_path :
  quiet (extract_primary_keys_from_zip w zip_path).
Proof.
  unfold extract_primary_keys_from_zip.
  apply quiet_bind; [apply extract_yang_files_quiet|]. intros yang_files.
  apply quiet_bind.
  - destruct yang_files; [|apply quiet_ret].
    apply quiet_bind; [apply quiet_logger|].
    intros _. apply examine_sample_quiet.
  - intros _. apply quiet_for_each. intros acc yang_file.
    apply quiet_bind; [apply quiet_logger|]. intros _.
    apply quiet_try_except.
    + apply quiet_bind; [apply extract_keys_using_regex_quiet|].
      intros a. apply quiet_ret.
    + intros e. apply quiet_bind; [apply quiet_logger|].
      intros _. apply quiet_ret.
Qed.

(** The result of a run is a function of the world alone. *)
Lemma extract_primary_keys_from_zip_stateless zip_path :
  stateless (extract_primary_keys_from_zip w zip_path).
Proof.
  unfold extract_primary_keys_from_zip.
  apply stateless_bind; [apply extract_yang_files_stateless|].
  intros yang_files. apply stateless_bind.
  - destruct yang_files; [|apply stateless_ret].
    apply stateless_bind; [apply stateless_logger|].
    intros _. apply examine_sample_stateless.
  - intros _. apply stateless_for_each. intros acc yang_file.
    apply stateless_bind; [apply stateless_logger|]. intros _.
    apply stateless_try_except.
    + apply stateless_bind; [apply extract_keys_using_regex_stateless|].
      intros a. apply stateless_ret.
    + intros e. apply stateless_bind; [apply stateless_logger|].
      intros _. apply stateless_ret.
Qed.

(** [main] in terms of the result of the run and of the write: the exit
    status is 0 and the document is written once when the run returns and
    the write completes; otherwise it is 1, with nothing written and the
    error logged. *)
Lemma main_spec args st :
  exists st',
    main w args st
    = (match fst (extract_primary_keys_from_zip w (zip_file args) start) with
       | Ok d =>
           if write_ok w (written args (json_dumps d)) then Ok 0%nat
           else Ok 1%nat
       | Raise _ => Ok 1%nat
       end, st')
    /\ out st'
       = out st
         ++ match fst (extract_primary_keys_from_zip w (zip_file args) start) with
            | Ok d =>
                if write_ok w (written args (json_dumps d))
                then [written args (json_dumps d)] else []
            | Raise _ => []
            end
    /\ (forall e,
          fst (extract_primary_keys_from_zip w (zip_file args) start) = Raise e ->
          logged ERROR (ErrorMessage e) st')
    /\ (forall d,
          fst (extract_primary_keys_from_zip w (zip_file args) start) = Ok d ->
          write_ok w (written args (json_dumps d)) = false ->
          logged ERROR
                 (ErrorMessage
                    (WriteError (destination (written args (json_dumps d)))))
                 st').
Proof.
  unfold main.
  destruct (setLevel_out args st) as (st0 & Hset & Hout0 & _).
  pose proof (extract_primary_keys_from_zip_stateless (zip_file args) start st0)
    as Hres.
  pose proof (extract_primary_keys_from_zip_quiet (zip_file args) st0) as Hq.
  destruct (extract_primary_keys_from_zip w (zip_file args) st0)
    as [[d|e] st1] eqn:Hrun; simpl in Hres, Hq; rewrite Hres;
    destruct Hq as (_ & Hout1 & _).
  - destruct (write_ok w (written args (json_dumps d))) eqn:Ew.
    + unfold written in *.
      destruct (output_path args) as [[|c p]|] eqn:Eo.
      * eexists. split; [|split; [|split]].
        -- erewrite bind_ok; [|exact Hset]. apply try_except_ok.
           erewrite bind_ok; [|exact Hrun].
           erewrite bind_ok; [reflexivity|apply write_done; exact Ew].
        -- simpl. congruence.
        -- discriminate.
        -- intros d' [= <-] H. congruence.
      * destruct (logger_follows INFO (ResultsSaved (c :: p))
                    {| logger_level := logger_level st1; log := log st1;
                       out := out st1 ++ [Saved (c :: p) (json_dumps d)] |})
          as (st2 & Hlog2 & (_ & Hout2 & _)).
        exists st2. split; [|split; [|split]].
        -- erewrite bind_ok; [|exact Hset]. apply try_except_ok.
           erewrite bind_ok; [|exact Hrun].
           erewrite bind_ok; [|apply write_done; exact Ew].
           erewrite bind_ok; [reflexivity|exact Hlog2].
        -- rewrite Hout2. simpl. congruence.
        -- discriminate.
        -- intros d' [= <-] H. congruence.
      * eexists. split; [|split; [|split]].
        -- erewrite bind_ok; [|exact Hset]. apply try_except_ok.
           erewrite bind_ok; [|exact Hrun].
           erewrite bind_ok; [reflexivity|apply write_done; exact Ew].
        -- simpl. congruence.
        -- discriminate.
        -- intros d' [= <-] H. congruence.
    + destruct (logger_logged ERROR
                  (ErrorMessage
                     (WriteError (destination (written args (json_dumps d)))))
                  st1)
        as (st2 & Hlog & (_ & Hout2 & _) & Hin); [apply levelno_error|].
      exists st2. split; [|split; [|split]].
      * erewrite bind_ok; [|exact Hset].
        erewrite try_except_raise.
        -- erewrite bind_ok; [reflexivity|exact Hlog].
        -- erewrite bind_ok; [|exact Hrun]. unfold written in *.
           destruct (output_path args) as [[|c p]|];
             (erewrite bind_raise; [reflexivity|apply write_failed; exact Ew]).
      * rewrite app_nil_r. congruence.
      * discriminate.
      * intros d' [= <-] _. exact Hin.
  - destruct (logger_logged ERROR (ErrorMessage e) st1)
      as (st2 & Hlog & (_ & Hout2 & _) & Hin); [apply levelno_error|].
    exists st2. split; [|split; [|split]].
    + erewrite bind_ok; [|exact Hset].
      erewrite try_except_raise;
        [|erewrite bind_raise; [reflexivity|exact Hrun]].
      erewrite bind_ok; [reflexivity|exact Hlog].
    + rewrite app_nil_r. congruence.
    + intros e' [= <-]. exact Hin.
    + discriminate.
Qed.


(** The verbose flag and the log so far change neither the exit status nor
    what is written: two invocations on the same archive path and output
    argument agree on both. *)
Theorem verbosity_changes_only_the_log zip_path output verbose1 verbose2 st1 st2 :
  let args1 := {| zip_file := zip_path; output_path := output;
                  verbose := verbose1 |} in
  let args2 := {| zip_file := zip_path; output_path := output;
                  verbose := verbose2 |} in
  fst (main w args1 st1) = fst (main w args2 st2)
  /\ exists written_now,
      out (snd (main w args1 st1)) = out st1 ++ written_now
      /\ out (snd (main w args2 st2)) = out st2 ++ written_now.
Proof.
  intros args1 args2.
  destruct (main_spec args1 st1) as (st1' & Hmain1 & Hout1 & _).
  destruct (main_spec args2 st2) as (st2' & Hmain2 & Hout2 & _).
  rewrite Hmain1, Hmain2. simpl. split; [reflexivity|].
  eexists. split; [exact Hout1|exact Hout2].
Qed.
End Footprint.

(** ** Failures of the selector, and runs that return *)

Lemma for_each_app {A B} (l1 l2 : list A) (body : B -> A -> M B) :
  forall acc st,
    for_each (l1 ++ l2) acc body st
    = bind (for_each l1 acc body) (fun acc' => for_each l2 acc' body) st.
Proof.
  induction l1 as [|x l1 IH]; intros acc st; [reflexivity|].
  simpl. unfold bind.
  destruct (body acc x st) as [[a|e] st1]; [|reflexivity].
  rewrite IH. unfold bind. reflexivity.
Qed.

Section Selection.
Variable w : world.

(** The selector stops at the first qualifying member that cannot be
    extracted and raises. *)
Lemma extract_yang_files_member_raise zip_path temp_dir zip_ref before f after st :
  ZipFile w zip_path = Some zip_ref ->
  namelist zip_ref = before ++ f :: after ->
  (forall g, In g before -> is_yang_member g = true ->
             extract_ok zip_ref g = true) ->
  is_yang_member f = true -> extract_ok zip_ref f = false ->
  exists st',
    extract_yang_files w zip_path temp_dir st = (Raise (MemberError f), st').
Proof.
  intros Hopen Hlist Hbefore Hf Hfail.
  unfold extract_yang_files, open_archive. rewrite Hopen.
  erewrite bind_ok; [|reflexivity]. cbv beta zeta. rewrite Hlist.
  destruct (logger_follows DEBUG (AllFilesInZip (before ++ f :: after)) st)
    as (st1 & Hlog1 & _).
  destruct (for_each_fold
              (fun yang_files file_path =>
                 if is_yang_member file_path
                 then yang_files ++ [path_join temp_dir file_path]
                 else yang_files)
              (fun yang_files file_path =>
                 if is_yang_member file_path then
                   if extract_ok zip_ref file_path then
                     logger INFO (Extracted file_path) ;;;
                     ret (yang_files ++ [path_join temp_dir file_path])
                   else raise (MemberError file_path)
                 else ret yang_files)
              (fun _ _ => True) before)
    with (acc := @nil str) (st := st1) as (st2 & Hloop & _).
  { intros acc g st0 Hin. destruct (is_yang_member g) eqn:E.
    - rewrite (Hbefore g Hin E).
      destruct (logger_follows INFO (Extracted g) st0) as (st0' & Hlog & Hfo).
      exists st0'. erewrite bind_ok; [|exact Hlog]. auto.
    - exists st0. split; [reflexivity|]. split; [apply follows_refl|exact I]. }
  { auto. }
  exists st2.
  erewrite bind_ok; [|exact Hlog1].
  erewrite bind_raise; [reflexivity|].
  rewrite for_each_app. erewrite bind_ok; [|exact Hloop].
  simpl. rewrite Hf, Hfail. reflexivity.
Qed.

Lemma selector_loop_inv temp_dir zip_ref names : forall acc st yang_files st',
  for_each names acc
    (fun yang_files file_path =>
       if is_yang_member file_path then
         if extract_ok zip_ref file_path then
           logger INFO (Extracted file_path) ;;;
           ret (yang_files ++ [path_join temp_dir file_path])
         else raise (MemberError file_path)
       else ret yang_files) st
  = (Ok yang_files, st') ->
  yang_files = acc ++ map (path_join temp_dir) (filter is_yang_member names)
  /\ forall g, In g names -> is_yang_member g = true ->
               extract_ok zip_ref g = true.
Proof.
  induction names as [|f names IH]; intros acc st yang_files st' H.
  - simpl in H. injection H as <- _. rewrite app_nil_r. split; [reflexivity|].
    intros g [].
  - simpl in H. unfold bind at 1 in H.
    destruct (is_yang_member f) eqn:Ef.
    + destruct (extract_ok zip_ref f) eqn:Eok; [|discriminate].
      destruct (logger_follows INFO (Extracted f) st) as (st1 & Hlog & _).
      erewrite bind_ok in H by exact Hlog. simpl in H.
      apply IH in H. destruct H as [-> Hall]. split.
      * simpl. rewrite Ef. simpl. now rewrite <- app_assoc.
      * intros g [<-|Hin] Hg; [exact Eok|now apply Hall].
    + simpl in H. apply IH in H. destruct H as [-> Hall]. split.
      * simpl. now rewrite Ef.
      * intros g [<-|Hin] Hg; [congruence|now apply Hall].
Qed.

(** When the selector returns, the archive was opened, every qualifying
    member was extracted, and the members returned are the qualifying ones
    in listing order. *)
Lemma extract_yang_files_inv zip_path temp_dir st yang_files st' :
  extract_yang_files w zip_path temp_dir st = (Ok yang_files, st') ->
  exists zip_ref,
    ZipFile w zip_path = Some zip_ref
    /\ yang_files
       = map (path_join temp_dir) (filter is_yang_member (namelist zip_ref))
    /\ forall g, In g (namelist zip_ref) -> is_yang_member g = true ->
                 extract_ok zip_ref g = true.
Proof.
  unfold extract_yang_files, open_archive. intros H.
  destruct (ZipFile w zip_path) as [zip_ref|]; [|discriminate].
  exists zip_ref. split; [reflexivity|].
  erewrite bind_ok in H by reflexivity.
  destruct (logger_follows DEBUG (AllFilesInZip (namelist zip_ref)) st)
    as (st1 & Hlog1 & _).
  erewrite bind_ok in H by exact Hlog1.
  unfold bind at 1 in H.
  match type of H with
  | (let (r, st'0) := ?loop in _) = _ =>
      destruct loop as [[files|e] st2] eqn:Hloop; [|discriminate]
  end.
  apply selector_loop_inv in Hloop. destruct Hloop as [Hfiles Hall].
  destruct (logger_follows INFO (TotalExtracted (length files)) st2)
    as (st3 & Hlog3 & _).
  erewrite bind_ok in H by exact Hlog3.
  injection H as <- _. auto.
Qed.

(** The paths the selector returns have, in listing order, the base names
    of the qualifying members, whatever the scratch directory: each has a
    hyphen in its base name, and the base name logged per member (line 77)
    is the member's own. *)
Theorem selected_paths_keep_base_names zip_path temp_dir st yang_files st' :
  extract_yang_files w zip_path temp_dir st = (Ok yang_files, st') ->
  exists zip_ref,
    ZipFile w zip_path = Some zip_ref
    /\ map basename yang_files
       = map basename (filter is_yang_member (namelist zip_ref))
    /\ Forall (fun yang_file => In hyphen (basename yang_file)) yang_files.
Proof.
  intros H. apply extract_yang_files_inv in H.
  destruct H as (zip_ref & Hzip & -> & _).
  exists zip_ref. split; [exact Hzip|]. split.
  - rewrite map_map. apply map_ext. intros f. apply basename_path_join.
  - apply Forall_map, Forall_forall. intros f Hf.
    rewrite basename_path_join. apply filter_In in Hf. destruct Hf as [_ Hf].
    apply is_yang_member_spec in Hf. now apply contains_iff.
Qed.

Lemma join_condition (a : str) :
  endswith a [slash] || (length a =? 0)%nat = true
  <-> a = [] \/ exists d, a = d ++ [slash].
Proof.
  rewrite orb_true_iff, endswith_iff, Nat.eqb_eq. split.
  - intros [H|H]; [now right|]. left. now destruct a.
  - intros [->|H]; [now right|now left].
Qed.

(** [os.path.join(a, b)] by cases: [b] itself when it begins with a slash;
    otherwise [a] followed by [b], with a slash between them unless [a] is
    empty or ends in one. *)
Lemma path_join_cases (a b p : str) :
  p = path_join a b
  <-> ((exists rest, b = slash :: rest) /\ p = b)
      \/ ((forall rest, b <> slash :: rest)
          /\ (a = [] \/ exists d, a = d ++ [slash]) /\ p = a ++ b)
      \/ ((forall rest, b <> slash :: rest)
          /\ a <> [] /\ (forall d, a <> d ++ [slash])
          /\ p = a ++ slash :: b).
Proof.
  pose proof (join_condition a) as Hc.
  assert (Hn : endswith a [slash] || (length a =? 0)%nat = false
               <-> a <> [] /\ forall d, a <> d ++ [slash]).
  { rewrite <- not_true_iff_false, Hc. split.
    - intros H. split; [tauto|]. intros d Hd. apply H. right. now exists d.
    - intros [H1 H2] [H|(d & H)]; [tauto|]. now apply (H2 d). }
  assert (Hhead : (exists rest, b = slash :: rest)
                  \/ (forall rest, b <> slash :: rest)).
  { destruct b as [|c b]; [right; discriminate|].
    destruct (N.eqb_spec c slash) as [->|Hne]; [left; now exists b|].
    right. intros rest [= E _]. now apply Hne. }
  assert (Hjoin : forall rest, path_join a (slash :: rest) = slash :: rest).
  { intros rest. unfold path_join. now rewrite N.eqb_refl. }
  assert (Hrel : (forall rest, b <> slash :: rest) ->
                 path_join a b
                 = if endswith a [slash] || (length a =? 0)%nat
                   then a ++ b else a ++ slash :: b).
  { intros Hb. unfold path_join. destruct b as [|c b].
    - rewrite app_nil_r. reflexivity.
    - destruct (N.eqb_spec c slash) as [->|Hne]; [|reflexivity].
      now destruct (Hb b). }
  split.
  - intros ->. destruct Hhead as [(rest & ->)|Hb].
    + left. split; [now exists rest|apply Hjoin].
    + right. rewrite (Hrel Hb).
      destruct (endswith a [slash] || (length a =? 0)%nat) eqn:E.
      * left. split; [exact Hb|]. split; [now apply Hc|reflexivity].
      * right. split; [exact Hb|].
        destruct (proj1 Hn eq_refl) as [H1 H2]. auto.
  - intros [((rest & ->) & ->)|[(Hb & Ha & ->)|(Hb & Ha1 & Ha2 & ->)]].
    + symmetry. apply Hjoin.
    + rewrite (Hrel Hb). now rewrite (proj2 Hc Ha).
    + rewrite (Hrel Hb). now rewrite (proj2 Hn (conj Ha1 Ha2)).
Qed.

(** Where the extractor will look for the members the selector returns.
    The paths returned are exactly those of the qualifying members of the
    archive: for a member whose name begins with a slash, that absolute
    name itself, [os.path.join] dropping the scratch directory; for any
    other member, the scratch directory followed by the name, with a slash
    between them exactly when the directory is not empty and does not end
    in one. *)
Theorem selected_paths_location zip_path temp_dir st yang_files st' :
  extract_yang_files w zip_path temp_dir st = (Ok yang_files, st') ->
  exists zip_ref,
    ZipFile w zip_path = Some zip_ref
    /\ forall yang_file,
        In yang_file yang_files
        <-> exists member,
              In member (namelist zip_ref) /\ is_yang_member member = true
              /\ (((exists rest, member = slash :: rest)
                   /\ yang_file = member)
                  \/ ((forall rest, member <> slash :: rest)
                      /\ (temp_dir = [] \/ exists d, temp_dir = d ++ [slash])
                      /\ yang_file = temp_dir ++ member)
                  \/ ((forall rest, member <> slash :: rest)
                      /\ temp_dir <> []
                      /\ (forall d, temp_dir <> d ++ [slash])
                      /\ yang_file = temp_dir ++ slash :: member)).
Proof.
  intros H. apply extract_yang_files_inv in H.
  destruct H as (zip_ref & Hzip & -> & _).
  exists zip_ref. split; [exact Hzip|]. intros yang_file.
  rewrite in_map_iff. split.
  - intros (member & <- & Hm). apply filter_In in Hm. destruct Hm as [Hin Hm].
    exists member. split; [exact Hin|]. split; [exact Hm|].
    now apply path_join_cases.
  - intros (member & Hin & Hm & Hcases). exists member. split.
    + symmetry. now apply path_join_cases.
    + apply filter_In. now split.
Qed.

(** A run that returns has merged the contributions of the selected
    members, in listing order. *)
Lemma run_ok_inv zip_path st d st' :
  extract_primary_keys_from_zip w zip_path st = (Ok d, st') ->
  exists zip_ref,
    ZipFile w zip_path = Some zip_ref
    /\ d = fold_left (fun all yang_file =>
                        dict_update all (member_tables w yang_file))
                     (selected w zip_ref) [].
Proof.
  intros Hrun. unfold extract_primary_keys_from_zip in Hrun.
  destruct (extract_yang_files w zip_path (tempdir w) st)
    as [[yang_files|e] st1] eqn:Hsel.
  - destruct (extract_yang_files_inv _ _ _ _ _ Hsel)
      as (zip_ref & Hopen & Hfiles & _).
    exists zip_ref. split; [exact Hopen|].
    erewrite bind_ok in Hrun by exact Hsel.
    destruct (match yang_files with
              | [] => logger WARNING NoYangFilesFound;;; examine_sample w zip_path
              | _ :: _ => ret tt
              end st1) as [[[]|e] st2] eqn:Hpre.
    + erewrite bind_ok in Hrun by exact Hpre.
      destruct (parse_loop_ok w yang_files [] st2) as (st3 & Hloop & _).
      pose proof (eq_trans (eq_sym Hloop) Hrun) as Heq.
      injection Heq as <- _. unfold selected. now rewrite Hfiles.
    + erewrite bind_raise in Hrun by exact Hpre. discriminate.
  - erewrite bind_raise in Hrun by exact Hsel. discriminate.
Qed.

(** A qualifying member that cannot be extracted from the archive is fatal:
    the selector does not guard [zip_ref.extract], so the run raises at the
    first such member, [main] exits with status 1, writes nothing, and logs
    the error; the members before and after it are lost with it. *)
Theorem member_extraction_failure_is_fatal args zip_ref before f after st :
  ZipFile w (zip_file args) = Some zip_ref ->
  namelist zip_ref = before ++ f :: after ->
  (forall g, In g before -> is_yang_member g = true ->
             extract_ok zip_ref g = true) ->
  is_yang_member f = true -> extract_ok zip_ref f = false ->
  exists st',
    main w args st = (Ok 1%nat, st')
    /\ out st' = out st
    /\ logged ERROR (ErrorMessage (MemberError f)) st'.
Proof.
  intros Hopen Hlist Hbefore Hf Hfail.
  assert (Hrun : fst (extract_primary_keys_from_zip w (zip_file args) start)
                 = Raise (MemberError f)).
  { destruct (extract_yang_files_member_raise (zip_file args) (tempdir w)
                zip_ref before f after start Hopen Hlist Hbefore Hf Hfail)
      as (st1 & Hsel).
    unfold extract_primary_keys_from_zip.
    erewrite bind_raise; [reflexivity|exact Hsel]. }
  destruct (main_spec w args st) as (st' & Hmain & Hout & Herr & _).
  rewrite Hrun in Hmain, Hout. rewrite app_nil_r in Hout.
  exists st'. auto.
Qed.

(** The entries of the mapping a run returns stand in the order in which
    the entity names are first declared, members in listing order: a later
    declaration of a name changes its value but not its place. *)
Theorem entries_keep_first_declaration_order zip_path st d st' :
  extract_primary_keys_from_zip w zip_path st = (Ok d, st') ->
  exists zip_ref,
    ZipFile w zip_path = Some zip_ref
    /\ keys d
       = first_occurrences (map fst (occurrences w (selected w zip_ref))).
Proof.
  intros Hrun. apply run_ok_inv in Hrun.
  destruct Hrun as (zip_ref & Hopen & ->).
  exists zip_ref. split; [exact Hopen|]. apply keys_merged.
Qed.

(** ** Members that do not collide *)







End Selection.

(** ** The document is ASCII *)

Lemma printable_hex_digit n : printable (hex_digit (n mod 16)) = true.
Proof.
  assert (Hn : n mod 16 < 16) by (apply N.mod_lt; discriminate).
  revert Hn. generalize (n mod 16). intros m Hm.
  unfold printable, hex_digit.
  destruct (N.ltb_spec m 10); apply orb_true_iff; right;
    apply andb_true_iff; split; apply N.leb_le; lia.
Qed.

Lemma printable_hex4 n : forallb printable (hex4 n) = true.
Proof. unfold hex4. simpl. now rewrite !printable_hex_digit. Qed.

Lemma printable_escape_char c : forallb printable (escape_char c) = true.
Proof.
  unfold escape_char.
  repeat match goal with
         | |- context [if ?b then _ else _] => destruct b eqn:?
         end; try reflexivity.
  - simpl. rewrite andb_true_r. unfold printable. apply orb_true_iff. now right.
  - change (backslash :: lit "u" ++ hex4 c) with ([backslash; 117] ++ hex4 c).
    now rewrite forallb_app, printable_hex4.
  - cbv zeta.
    match goal with
    | |- forallb printable (backslash :: lit "u" ++ hex4 ?s1
                            ++ backslash :: lit "u" ++ hex4 ?s2) = true =>
        change (forallb printable
                  ([backslash; 117] ++ hex4 s1 ++ [backslash; 117] ++ hex4 s2)
                = true)
    end.
    now rewrite !forallb_app, !printable_hex4.
Qed.

Lemma printable_encode_string s : forallb printable (encode_string s) = true.
Proof.
  unfold encode_string. simpl. rewrite forallb_app. simpl.
  rewrite andb_true_r. induction s as [|c s IH]; [reflexivity|].
  simpl. now rewrite forallb_app, printable_escape_char.
Qed.

Lemma printable_newline_indent level :
  forallb printable (newline_indent level) = true.
Proof.
  unfold newline_indent.
  change (forallb printable (repeat 32 (2 * level)) = true).
  induction (2 * level)%nat as [|n IH]; [reflexivity|exact IH].
Qed.

Lemma printable_join_items level items :
  forallb (forallb printable) items = true ->
  forallb printable (join_items level items) = true.
Proof.
  induction items as [|x items IH]; [reflexivity|].
  intros H. simpl in H. apply andb_true_iff in H. destruct H as [Hx Hitems].
  destruct items as [|y items]; [exact Hx|].
  rewrite join_items_cons, !forallb_app, Hx, printable_newline_indent.
  do 3 (apply andb_true_iff; split; [reflexivity|]). exact (IH Hitems).
Qed.

Lemma printable_encode_value level v :
  forallb printable (encode_value level v) = true.
Proof.
  destruct v as [k|[|x ks]]; [apply printable_encode_string|reflexivity|].
  unfold encode_value, encode_list.
  rewrite !forallb_app, !printable_newline_indent, printable_join_items.
  - reflexivity.
  - rewrite forallb_forall. intros s Hs. apply in_map_iff in Hs.
    destruct Hs as (k & <- & _). apply printable_encode_string.
Qed.

(** Whatever strings the mapping holds, the document written for it is
    made of printable ASCII characters and newlines only. *)
Theorem the_document_is_ascii (d : dict key) :
  forallb printable (json_dumps d) = true.
Proof.
  destruct d as [|kv d]; [reflexivity|].
  unfold json_dumps.
  rewrite !forallb_app, !printable_newline_indent, printable_join_items.
  - reflexivity.
  - rewrite forallb_forall. intros s Hs. apply in_map_iff in Hs.
    destruct Hs as ([k v] & <- & _). unfold encode_item. cbn [fst snd].
    rewrite !forallb_app, printable_encode_string, printable_encode_value.
    reflexivity.
Qed.

(** Two well-formed mappings with the same document are the same mapping:
    the output loses nothing. *)
Theorem documents_determine_mappings (d1 d2 : dict key) :
  well_formed d1 -> well_formed d2 ->
  json_dumps d1 = json_dumps d2 -> d1 = d2.
Proof.
  intros H1 H2 Heq.
  apply json_loads_dumps in H1. apply json_loads_dumps in H2.
  rewrite Heq in H1. congruence.
Qed.

(** ** The stored key *)

(** The stored key loses nothing: whether a string or a list, it stands for
    exactly the tokens of the quoted string, in order, also when there is
    none; and a list of one field name is never stored. *)
Theorem stored_key_lists_the_tokens raw :
  key_fields (key_representation raw) = split raw
  /\ Tokens raw (key_fields (key_representation raw))
  /\ forall k, key_representation raw <> Multiple [k].
Proof.
  assert (H : key_fields (key_representation raw) = split raw).
  { unfold key_representation.
    destruct (split raw) as [|k [|k' ks]]; reflexivity. }
  split; [exact H|]. split.
  - rewrite H. apply split_Tokens.
  - intros k. unfold key_representation.
    destruct (split raw) as [|k0 [|k' ks]]; simpl; discriminate.
Qed.

End Unicode.

(** ** The theorems at sample inputs *)


Lemma key_clause_representation_witness :
  dict_get (extract_keys_from_text latin1_alnum (list_foo (lit "bar baz"))) foo
  = Some (Multiple [bar; baz]).
Proof.
  pose (content := list_foo (lit "bar baz")).
  pose (m := nth 0 (finditer (list_pattern latin1_alnum) content) no_marks).
  destruct (proj1 (key_clause_representation latin1_alnum) content [] m [])
    as (_ & _ & Hmultiple).
  - vm_compute. reflexivity.
  - intros m' [].
  - apply Hmultiple. vm_compute. lia.
Defined.

Lemma last_occurrence_wins_witness :
  exists d st',
    extract_primary_keys_from_zip latin1_alnum sample_world (lit "schemas.zip") start
    = (Ok d, st')
    /\ dict_get d foo = Some (Multiple [bar; baz]).
Proof.
  destruct (last_occurrence_wins latin1_alnum sample_world (lit "schemas.zip")
              sample_archive start)
    as (d & st' & Hrun & _ & Hget & _).
  - reflexivity.
  - intros f _ _. reflexivity.
  - vm_compute. discriminate.
  - exists d, st'. split; [exact Hrun|]. rewrite Hget. vm_compute. reflexivity.
Defined.

Lemma member_failures_are_isolated_witness :
  exists st',
    extract_primary_keys_from_zip latin1_alnum sample_world (lit "schemas.zip") start
    = (Ok [(foo, Multiple [bar; baz])], st')
    /\ logged ERROR
         (ErrorParsing (lit "/tmp/tmpk3/yang/1.0-gone.yang")
                       (FileError (lit "/tmp/tmpk3/yang/1.0-gone.yang"))) st'.
Proof.
  destruct (member_failures_are_isolated latin1_alnum sample_world
              (lit "schemas.zip") sample_archive start)
    as (st' & Hrun & Hall).
  - reflexivity.
  - intros f _ _. reflexivity.
  - vm_compute. discriminate.
  - exists st'. split; [exact Hrun|].
    apply (Hall (lit "/tmp/tmpk3/yang/1.0-gone.yang")).
    + vm_compute. tauto.
    + reflexivity.
Defined.

Lemma unreadable_archive_aborts_witness :
  exists st',
    main latin1_alnum sample_world
         {| zip_file := lit "missing.zip"; output_path := None; verbose := false |}
         start
    = (Ok 1%nat, st')
    /\ out st' = [].
Proof.
  destruct (unreadable_archive_aborts latin1_alnum sample_world
              {| zip_file := lit "missing.zip"; output_path := None;
                 verbose := false |} start)
    as (st' & Hrun & Hout & _).
  - reflexivity.
  - exists st'. split; [exact Hrun|exact Hout].
Defined.



Lemma sample_world_decoded path content :
  file_text sample_world path = Some content -> Forall scalar content.
Proof.
  unfold sample_world, file_text.
  destruct (str_eqb path (lit "/tmp/tmpk3/yang/1.0-foo.yang")).
  - intros [= <-]. apply forallb_scalar. reflexivity.
  - destruct (str_eqb path (lit "/tmp/tmpk3/yang/1.1-foo.yang")).
    + intros [= <-]. apply forallb_scalar. reflexivity.
    + discriminate.
Qed.

Lemma json_round_trip_witness :
  json_loads (json_dumps [(foo, Multiple [bar; baz]);
                          (lit "smile", Single [0x1F600; 233; 10])])
  = Some [(foo, Multiple [bar; baz]); (lit "smile", Single [0x1F600; 233; 10])]
  /\ exists d st',
      extract_primary_keys_from_zip latin1_alnum sample_world
                                    (lit "schemas.zip") start
      = (Ok d, st')
      /\ json_loads (json_dumps d) = Some d.
Proof.
  destruct (json_round_trip latin1_alnum) as [Hany Hrun]. split.
  - apply Hany. split.
    + repeat constructor; simpl; intuition discriminate.
    + apply entries_scalar. reflexivity.
  - destruct (extract_primary_keys_from_zip latin1_alnum sample_world
                (lit "schemas.zip") start) as [[d|e] st'] eqn:E.
    + exists d, st'. split; [reflexivity|].
      exact (Hrun sample_world (lit "schemas.zip") start d st'
                  sample_world_decoded E).
    + vm_compute in E. discriminate.
Defined.

Lemma selector_on_conventional_names_witness :
  is_yang_member (lit "yang/1.0-foo.yang") = true
  /\ is_yang_member (lit "yang/1.0.yang") = false.
Proof.
  apply (selector_on_conventional_names (lit "yang/") (lit "1.0") (lit "foo")).
  - vm_compute. intuition discriminate.
  - vm_compute. intuition discriminate.
  - vm_compute. intuition discriminate.
  - vm_compute. intuition discriminate.
  - right. exists (lit "yang"). reflexivity.
Defined.


(** ** The further theorems at sample inputs *)

Lemma entry_comes_from_a_declaration_witness :
  exists pre ws1 ws2 body ws3 raw rest,
    list_foo (lit "bar baz")
    = pre ++ declaration_text ws1 foo ws2 body ws3 raw ++ rest
    /\ Multiple [bar; baz] = key_representation raw.
Proof.
  destruct (entry_comes_from_a_declaration latin1_alnum
              (list_foo (lit "bar baz")) foo (Multiple [bar; baz]))
    as (pre & ws1 & ws2 & body & ws3 & raw & rest & Htext & H).
  - vm_compute. reflexivity.
  - exists pre, ws1, ws2, body, ws3, raw, rest. split; [exact Htext|].
    apply H.
Defined.

Lemma entries_have_the_stored_shape_witness :
  foo <> [] /\ Forall (fun c => isword latin1_alnum c = true) foo
  /\ key_shape (Multiple [bar; baz]).
Proof.
  apply (entries_have_the_stored_shape latin1_alnum
           (list_foo (lit "bar baz")) foo (Multiple [bar; baz])).
  vm_compute. reflexivity.
Defined.

Lemma text_without_key_clause_gives_nothing_witness :
  extract_keys_from_text latin1_alnum (lit "list Foo { leaf bar; key bar; }")
  = [].
Proof.
  apply (text_without_key_clause_gives_nothing latin1_alnum).
  right. intros Hin. vm_compute in Hin.
  repeat (destruct Hin as [Hin|Hin]; [discriminate Hin|]). exact Hin.
Defined.

Lemma member_extraction_failure_is_fatal_witness :
  exists st',
    main latin1_alnum corrupt_world
         {| zip_file := lit "schemas.zip"; output_path := None;
            verbose := false |} start
    = (Ok 1%nat, st')
    /\ out st' = []
    /\ logged ERROR (ErrorMessage (MemberError (lit "yang/1.1-foo.yang"))) st'.
Proof.
  apply (member_extraction_failure_is_fatal latin1_alnum corrupt_world
           {| zip_file := lit "schemas.zip"; output_path := None;
              verbose := false |}
           corrupt_archive [lit "yang/1.0-foo.yang"] (lit "yang/1.1-foo.yang")
           [] start).
  - reflexivity.
  - reflexivity.
  - intros g [<-|[]] _. reflexivity.
  - vm_compute. reflexivity.
  - reflexivity.
Defined.

Lemma entries_keep_first_declaration_order_witness :
  exists d st',
    extract_primary_keys_from_zip latin1_alnum two_orders_world
                                  (lit "second.zip") start
    = (Ok d, st')
    /\ keys d = [lit "Bar"; foo].
Proof.
  destruct (extract_primary_keys_from_zip latin1_alnum two_orders_world
              (lit "second.zip") start) as [[d|e] st'] eqn:E.
  - exists d, st'. split; [reflexivity|].
    destruct (entries_keep_first_declaration_order latin1_alnum
                two_orders_world (lit "second.zip") start d st' E)
      as (zip_ref & Hzip & Hkeys).
    injection Hzip as <-. rewrite Hkeys. vm_compute. reflexivity.
  - vm_compute in E. discriminate E.
Defined.


Lemma documents_determine_mappings_witness :
  extract_keys_from_text latin1_alnum (list_foo (lit "bar baz"))
  = [(foo, Multiple [bar; baz])].
Proof.
  apply documents_determine_mappings.
  - split.
    + repeat constructor; simpl; intuition discriminate.
    + apply entries_scalar. reflexivity.
  - split.
    + repeat constructor; simpl; intuition discriminate.
    + apply entries_scalar. reflexivity.
  - vm_compute. reflexivity.
Defined.

Lemma selected_paths_keep_base_names_witness :
  exists yang_files st',
    extract_yang_files absolute_world (lit "schemas.zip") (lit "/tmp/tmpk3")
                       start
    = (Ok yang_files, st')
    /\ map basename yang_files = [lit "1.0-foo.yang"; lit "1.0-bar.yang"].
Proof.
  destruct (extract_yang_files absolute_world (lit "schemas.zip")
              (lit "/tmp/tmpk3") start) as [[yang_files|e] st'] eqn:E;
    [|vm_compute in E; discriminate E].
  exists yang_files, st'. split; [reflexivity|].
  destruct (selected_paths_keep_base_names absolute_world (lit "schemas.zip")
              (lit "/tmp/tmpk3") start yang_files st' E)
    as (zip_ref & Hzip & Hnames & _).
  injection Hzip as <-. rewrite Hnames. vm_compute. reflexivity.
Defined.

Lemma selected_paths_location_witness :
  exists yang_files st',
    extract_yang_files absolute_world (lit "schemas.zip") (lit "/tmp/tmpk3")
                       start
    = (Ok yang_files, st')
    /\ In (lit "/etc/1.0-foo.yang") yang_files
    /\ In (lit "/tmp/tmpk3/yang/1.0-bar.yang") yang_files
    /\ ~ In (lit "/tmp/tmpk3/etc/1.0-foo.yang") yang_files.
Proof.
  destruct (extract_yang_files absolute_world (lit "schemas.zip")
              (lit "/tmp/tmpk3") start) as [[yang_files|e] st'] eqn:E;
    [|vm_compute in E; discriminate E].
  exists yang_files, st'. split; [reflexivity|].
  destruct (selected_paths_location absolute_world (lit "schemas.zip")
              (lit "/tmp/tmpk3") start yang_files st' E)
    as (zip_ref & Hzip & Hpaths).
  injection Hzip as <-. split; [|split].
  - apply Hpaths. exists (lit "/etc/1.0-foo.yang").
    split; [vm_compute; tauto|]. split; [vm_compute; reflexivity|].
    left. split; [eexists; reflexivity|reflexivity].
  - apply Hpaths. exists (lit "yang/1.0-bar.yang").
    split; [vm_compute; tauto|]. split; [vm_compute; reflexivity|].
    right. right. split; [discriminate|]. split; [discriminate|].
    split; [|reflexivity].
    intros d Hd. apply (f_equal (@rev char)) in Hd.
    rewrite rev_app_distr in Hd. vm_compute in Hd. discriminate Hd.
  - intros Hin. apply Hpaths in Hin.
    destruct Hin as (member & Hm & _ & Hcases). vm_compute in Hm.
    destruct Hm as [<-|[<-|[]]];
      destruct Hcases as [(_ & H)|[(Hb & _ & H)|(Hb & _ & _ & H)]];
      first [discriminate H | exfalso; eapply Hb; reflexivity].
Defined.

